(** * SimpleHash256: a shallow embedding of [hash_function.py]

    The Python class [SimpleHash256] is a mutable object with three instance
    attributes ([state], [buffer], [counter]).  Its methods are embedded as
    computations in a state-and-exception monad over a record holding those
    attributes; the static helpers and the padding are pure functions.

    Python integers are unbounded, so they are [Z], and the bit operators
    [&], [|], [^], [~], [>>], [<<] are [Z.land], [Z.lor], [Z.lxor],
    [Z.lnot], [Z.shiftr], [Z.shiftl], which agree with Python on negative
    numbers too (infinite two's complement).  A [bytes] object is a list of
    [Byte.byte]. *)

From Stdlib Require Import ZArith NArith List Bool Lia.
From Stdlib.Strings Require Import Byte.
Import ListNotations.
Local Open Scope Z_scope.

(** ** Python values *)

Definition bytes := list byte.

(** A Python [str] is a sequence of Unicode code points. *)
Definition str := list N.

(** The exceptions the embedded code can raise. *)
Inductive exn : Set :=
| ValueError          (* unpacking a sequence of the wrong length *)
| IndexError          (* list index out of range *)
| OverflowError       (* int too big to convert in [to_bytes] *)
| UnicodeEncodeError. (* [str.encode] on a lone surrogate *)

(** Result of running a piece of Python code: a value, an exception, or the
    iteration bound that the model gives to the [while] loop of [update] was
    reached (it never is, see [update_loop_enough_fuel]). *)
Inductive outcome (A : Type) : Type :=
| Ret (a : A)
| Raise (e : exn)
| OutOfFuel.
Arguments Ret {A} a.
Arguments Raise {A} e.
Arguments OutOfFuel {A}.

(** Sequencing of operations that can raise but touch no object. *)
Definition obind {A B} (o : outcome A) (k : A -> outcome B) : outcome B :=
  match o with
  | Ret a => k a
  | Raise e => Raise e
  | OutOfFuel => OutOfFuel
  end.

Definition byte_of_Z (z : Z) : byte :=
  match Byte.of_N (Z.to_N (z mod 256)) with
  | Some b => b
  | None => x00
  end.

Definition Z_of_byte (b : byte) : Z := Z.of_N (Byte.to_N b).

(** [int.from_bytes(bs, byteorder='big')] *)
Definition from_bytes (bs : bytes) : Z :=
  fold_left (fun acc b => acc * 256 + Z_of_byte b) bs 0.

(** The [n] low-order base-256 digits of [v], most significant first. *)
Fixpoint be_digits (n : nat) (v : Z) : bytes :=
  match n with
  | O => []
  | S k => be_digits k (v / 256) ++ [byte_of_Z v]
  end.

(** [v.to_bytes(n, byteorder='big')]: raises [OverflowError] when [v] is
    negative or does not fit in [n] bytes. *)
Definition to_bytes (v : Z) (n : nat) : outcome bytes :=
  if (0 <=? v) && (v <? 256 ^ Z.of_nat n) then Ret (be_digits n v)
  else Raise OverflowError.

(** The slice [l[i:j]] for [0 <= i <= j]. *)
Definition slice {A} (l : list A) (i j : nat) : list A :=
  firstn (j - i) (skipn i l).

(** [range(start, stop, step)] for a positive [step]. *)
Definition range (start stop step : nat) : list nat :=
  map (fun k => (start + k * step)%nat)
      (seq 0 ((stop - start + (step - 1)) / step)).

(** [list.__getitem__] with a default; every use below is in range. *)
Definition getitem (l : list Z) (i : nat) : Z := nth i l 0.

Fixpoint setitem (l : list Z) (i : nat) (v : Z) : option (list Z) :=
  match l, i with
  | [], _ => None
  | _ :: t, O => Some (v :: t)
  | x :: t, S k => option_map (cons x) (setitem t k v)
  end.

(** [s.encode('utf-8')] (strict error handler): the surrogate code points
    U+D800..U+DFFF have no UTF-8 encoding. *)
Definition utf8_encode_char (c : N) : outcome bytes :=
  let z := Z.of_N c in
  if z <? 0x80 then Ret [byte_of_Z z]
  else if z <? 0x800 then
    Ret [byte_of_Z (Z.lor 0xC0 (Z.shiftr z 6));
         byte_of_Z (Z.lor 0x80 (Z.land z 0x3F))]
  else if (0xD800 <=? z) && (z <=? 0xDFFF) then Raise UnicodeEncodeError
  else if z <? 0x10000 then
    Ret [byte_of_Z (Z.lor 0xE0 (Z.shiftr z 12));
         byte_of_Z (Z.lor 0x80 (Z.land (Z.shiftr z 6) 0x3F));
         byte_of_Z (Z.lor 0x80 (Z.land z 0x3F))]
  else
    Ret [byte_of_Z (Z.lor 0xF0 (Z.shiftr z 18));
         byte_of_Z (Z.lor 0x80 (Z.land (Z.shiftr z 12) 0x3F));
         byte_of_Z (Z.lor 0x80 (Z.land (Z.shiftr z 6) 0x3F));
         byte_of_Z (Z.lor 0x80 (Z.land z 0x3F))].

Fixpoint encode_utf8 (s : str) : outcome bytes :=
  match s with
  | [] => Ret []
  | c :: s' =>
      obind (utf8_encode_char c) (fun bs =>
      obind (encode_utf8 s') (fun r =>
      Ret (bs ++ r)))
  end.

(** The argument of [update]: "bytes or string to hash". *)
Inductive data : Type :=
| Bytes (b : bytes)
| Str (s : str).

(** ** The engine object and its monad *)

Record engine : Type := Engine {
  state : list Z;
  buffer : bytes;
  counter : Z
}.

Definition M (A : Type) : Type := engine -> outcome A * engine.

Definition ret {A} (a : A) : M A := fun s => (Ret a, s).

Definition bind {A B} (m : M A) (k : A -> M B) : M B :=
  fun s =>
    match m s with
    | (Ret a, s') => k a s'
    | (Raise e, s') => (Raise e, s')
    | (OutOfFuel, s') => (OutOfFuel, s')
    end.

Definition lift {A} (o : outcome A) : M A := fun s => (o, s).

Declare Scope py_scope.
Delimit Scope py_scope with py.
Notation "x <- m ;; k" := (bind m (fun x => k))
  (at level 61, m at next level, right associativity) : py_scope.
Notation "m ;; k" := (bind m (fun _ => k))
  (at level 61, right associativity) : py_scope.
Notation "' pat <- m ;; k" := (bind m (fun x => match x with pat => k end))
  (at level 61, pat pattern, m at next level, right associativity) : py_scope.
Local Open Scope py_scope.

Definition get_state : M (list Z) := fun s => (Ret (state s), s).
Definition get_buffer : M bytes := fun s => (Ret (buffer s), s).
Definition get_counter : M Z := fun s => (Ret (counter s), s).

Definition set_state (st : list Z) : M unit :=
  fun s => (Ret tt, Engine st (buffer s) (counter s)).
Definition set_buffer (b : bytes) : M unit :=
  fun s => (Ret tt, Engine (state s) b (counter s)).
Definition set_counter (c : Z) : M unit :=
  fun s => (Ret tt, Engine (state s) (buffer s) c).

(** [self.state[i]] *)
Definition state_getitem (i : nat) : M Z :=
  fun s =>
    match nth_error (state s) i with
    | Some v => (Ret v, s)
    | None => (Raise IndexError, s)
    end.

(** [self.state[i] = v]: the list held by [self.state] is changed in place.
    The only other references to a state list in the class are the copies
    made by [.copy()], so no alias observes the change. *)
Definition state_setitem (i : nat) (v : Z) : M unit :=
  fun s =>
    match setitem (state s) i v with
    | Some st => (Ret tt, Engine st (buffer s) (counter s))
    | None => (Raise IndexError, s)
    end.

(** [for x in xs: body(x)] *)
Fixpoint for_ {A} (xs : list A) (body : A -> M unit) : M unit :=
  match xs with
  | [] => ret tt
  | x :: xs' => body x ;; for_ xs' body
  end.

(** A [for] loop that threads a local variable. *)
Fixpoint for_acc {A B} (xs : list A) (acc : B) (body : B -> A -> M B) : M B :=
  match xs with
  | [] => ret acc
  | x :: xs' => acc' <- body acc x ;; for_acc xs' acc' body
  end.

(** ** Class constants *)

Definition INITIAL_HASH : list Z :=
  [ 0x6a09e667; 0xbb67ae85; 0x3c6ef372; 0xa54ff53a;
    0x510e527f; 0x9b05688c; 0x1f83d9ab; 0x5be0cd19 ].

(** The sixteen round constants, in the four rows of the source. *)
Definition K : list Z :=
  [ 0x428a2f98; 0x71374491; 0xb5c0fbcf; 0xe9b5dba5 ] ++
  [ 0x3956c25b; 0x59f111f1; 0x923f82a4; 0xab1c5ed5 ] ++
  [ 0xd807aa98; 0x12835b01; 0x243185be; 0x550c7dc3 ] ++
  [ 0x72be5d74; 0x80deb1fe; 0x9bdc06a7; 0xc19bf174 ].

(** The literal [0xFFFFFFFF] that the source writes at every masking. *)
Definition MASK32 : Z := 0xFFFFFFFF.

(** ** Methods *)

(** [reset]: [INITIAL_HASH.copy()] is a fresh list, so later in-place
    updates of [self.state] never reach the class constant. *)
Definition reset : M unit :=
  set_state INITIAL_HASH ;;
  set_buffer [] ;;
  set_counter 0.

(** [__init__] runs [reset] on the new object; whatever the attributes held
    before is overwritten. *)
Definition new : engine :=
  snd (reset (Engine [] [] 0)).

Definition _rotate_right (value shift : Z) : Z :=
  let value := Z.land value MASK32 in
  Z.land (Z.lor (Z.shiftr value shift) (Z.shiftl value (32 - shift))) MASK32.

Definition _rotate_left (value shift : Z) : Z :=
  let value := Z.land value MASK32 in
  Z.land (Z.lor (Z.shiftl value shift) (Z.shiftr value (32 - shift))) MASK32.

Definition _pad_message (message : bytes) : outcome bytes :=
  let msg_len := Z.of_nat (length message) in
  let message := message ++ [x80] in
  let padding_len := (56 - (msg_len + 1) mod 64) mod 64 in
  let message := message ++ repeat x00 (Z.to_nat padding_len) in
  obind (to_bytes (msg_len * 8) 8) (fun len_bytes =>
  Ret (message ++ len_bytes)).


(** *** [_compress_block] *)

(** Lines 129-132: the sixteen big-endian words of the block. *)
Definition block_words (block : bytes) : list Z :=
  map (fun i => from_bytes (slice block i (i + 4))) (range 0 64 4).

(** Lines 135-138: one iteration of the message schedule loop. *)
Definition schedule_step (words : list Z) (i : nat) : list Z :=
  let s0 := Z.lxor (Z.lxor (_rotate_right (getitem words (i - 15)) 7)
                           (_rotate_right (getitem words (i - 15)) 18))
                   (Z.shiftr (getitem words (i - 15)) 3) in
  let s1 := Z.lxor (Z.lxor (_rotate_right (getitem words (i - 2)) 17)
                           (_rotate_right (getitem words (i - 2)) 19))
                   (Z.shiftr (getitem words (i - 2)) 10) in
  words ++ [Z.land (getitem words (i - 16) + s0 + getitem words (i - 7) + s1)
                   MASK32].

Definition schedule (block : bytes) : list Z :=
  fold_left schedule_step (seq 16 48) (block_words block).

(** The eight working variables [a] .. [h]. *)
Definition regs : Type := (Z * Z * Z * Z * Z * Z * Z * Z)%type.

(** Lines 144-162: one round of the main loop. *)
Definition round (words : list Z) (r : regs) (i : nat) : regs :=
  let '(a, b, c, d, e, f, g, h) := r in
  let S1 := Z.lxor (Z.lxor (_rotate_right e 6) (_rotate_right e 11))
                   (_rotate_right e 25) in
  let ch := Z.lxor (Z.land e f) (Z.land (Z.lnot e) g) in
  let temp1 := Z.land (h + S1 + ch + getitem K (i mod 16) + getitem words i)
                      MASK32 in
  let S0 := Z.lxor (Z.lxor (_rotate_right a 2) (_rotate_right a 13))
                   (_rotate_right a 22) in
  let maj := Z.lxor (Z.lxor (Z.land a b) (Z.land a c)) (Z.land b c) in
  let temp2 := Z.land (S0 + maj) MASK32 in
  let h := g in
  let g := f in
  let f := e in
  let e := Z.land (d + temp1) MASK32 in
  let d := c in
  let c := b in
  let b := a in
  let a := Z.land (temp1 + temp2) MASK32 in
  (a, b, c, d, e, f, g, h).

Definition rounds (words : list Z) (r : regs) : regs :=
  fold_left (round words) (seq 0 64) r.

(** [a, b, c, d, e, f, g, h = self.state] *)
Definition unpack8 (st : list Z) : M regs :=
  match st with
  | [a; b; c; d; e; f; g; h] => ret (a, b, c, d, e, f, g, h)
  | _ => lift (Raise ValueError)
  end.

(** [self.state[i] = (self.state[i] + v) & 0xFFFFFFFF] *)
Definition state_add (i : nat) (v : Z) : M unit :=
  x <- state_getitem i ;;
  state_setitem i (Z.land (x + v) MASK32).

Definition _compress_block (block : bytes) : M unit :=
  let words := schedule block in
  st <- get_state ;;
  r <- unpack8 st ;;
  let '(a, b, c, d, e, f, g, h) := rounds words r in
  state_add 0 a ;;
  state_add 1 b ;;
  state_add 2 c ;;
  state_add 3 d ;;
  state_add 4 e ;;
  state_add 5 f ;;
  state_add 6 g ;;
  state_add 7 h.

(** *** [update] *)

(** Lines 188-191.  Every iteration removes 64 bytes from the buffer, so a
    bound of [length buffer / 64] iterations is never reached. *)
Fixpoint update_loop (fuel : nat) : M unit :=
  b <- get_buffer ;;
  if (64 <=? length b)%nat then
    match fuel with
    | O => lift OutOfFuel
    | S fuel' =>
        let block := slice b 0 64 in
        set_buffer (skipn 64 b) ;;
        _compress_block block ;;
        update_loop fuel'
    end
  else ret tt.

Definition update (d : data) : M unit :=
  d <- match d with
       | Str s => lift (encode_utf8 s)
       | Bytes b => ret b
       end ;;
  b <- get_buffer ;;
  set_buffer (b ++ d) ;;
  c <- get_counter ;;
  set_counter (c + Z.of_nat (length d)) ;;
  b <- get_buffer ;;
  update_loop (length b / 64).

(** *** [digest] *)

Definition digest : M bytes :=
  final_state <- get_state ;;
  final_buffer <- get_buffer ;;
  padded <- lift (_pad_message final_buffer) ;;
  temp_state <- get_state ;;
  for_ (range 0 (length padded) 64)
       (fun i => _compress_block (slice padded i (i + 64))) ;;
  st <- get_state ;;
  result <- for_acc st [] (fun result word =>
              wb <- lift (to_bytes word 4) ;; ret (result ++ wb)) ;;
  set_state temp_state ;;
  ret result.

(** ** What the methods compute

    The functions of this part are not translations of source text: they
    describe, as pure functions of the attributes, the effect that the
    methods above are proved to have. *)

(** The state list left by [_compress_block] when the state has 8 words. *)
Definition compress_state (st : list Z) (block : bytes) : list Z :=
  match st with
  | [s0; s1; s2; s3; s4; s5; s6; s7] =>
      let '(a, b, c, d, e, f, g, h) :=
        rounds (schedule block) (s0, s1, s2, s3, s4, s5, s6, s7) in
      [ Z.land (s0 + a) MASK32; Z.land (s1 + b) MASK32;
        Z.land (s2 + c) MASK32; Z.land (s3 + d) MASK32;
        Z.land (s4 + e) MASK32; Z.land (s5 + f) MASK32;
        Z.land (s6 + g) MASK32; Z.land (s7 + h) MASK32 ]
  | _ => st
  end.

(** State and buffer left by the [while] loop of [update]. *)
Fixpoint absorb (fuel : nat) (st : list Z) (buf : bytes) : list Z * bytes :=
  if (64 <=? length buf)%nat then
    match fuel with
    | O => (st, buf)
    | S fuel' => absorb fuel' (compress_state st (firstn 64 buf)) (skipn 64 buf)
    end
  else (st, buf).

Definition absorb_all (st : list Z) (buf : bytes) : list Z * bytes :=
  absorb (length buf / 64) st buf.

(** The blocks that [digest] cuts out of the padded message. *)
Definition blocks (padded : bytes) : list bytes :=
  map (fun i => slice padded i (i + 64)) (range 0 (length padded) 64).

Definition encode_state (st : list Z) : bytes :=
  concat (map (be_digits 4) st).

(** The value returned by [digest] for a given state and padded buffer. *)
Definition digest_of (st : list Z) (padded : bytes) : bytes :=
  encode_state (fold_left compress_state (blocks padded) st).

Definition word32 (w : Z) : Prop := 0 <= w <= 0xFFFFFFFF.

(** The engine invariant of the data model: eight 32-bit words and fewer
    than 64 pending bytes. *)
Definition engine_inv (e : engine) : Prop :=
  length (state e) = 8%nat /\
  Forall word32 (state e) /\
  (length (buffer e) <= 63)%nat.

(** Engines that a caller can obtain through the public operations.  An
    operation that raises leaves the object as it was when the exception
    left the method, and the caller may go on using it. *)
Inductive reachable : engine -> Prop :=
| reachable_new : reachable new
| reachable_update e d : reachable e -> reachable (snd (update d e))
| reachable_digest e : reachable e -> reachable (snd (digest e))
| reachable_reset e : reachable e -> reachable (snd (reset e)).

(** The engine left by [update] on a byte string. *)
Definition feed (e : engine) (d : bytes) : engine :=
  Engine (fst (absorb_all (state e) (buffer e ++ d)))
         (snd (absorb_all (state e) (buffer e ++ d)))
         (counter e + Z.of_nat (length d)).

Definition padding_len (n : nat) : nat :=
  Z.to_nat ((56 - (Z.of_nat n + 1) mod 64) mod 64).

(** The value of [_pad_message] when the length field fits. *)
Definition padded (m : bytes) : bytes :=
  ((m ++ [x80]) ++ repeat x00 (padding_len (length m)))
    ++ be_digits 8 (Z.of_nat (length m) * 8).

(** ** Callers

    A caller's script is a sequence of calls on one engine object; it
    collects the digests returned, and an exception ends it. *)

Inductive call : Type :=
| CallUpdate (d : data)
| CallDigest
| CallReset.

Fixpoint run_calls (cs : list call) : M (list bytes) :=
  match cs with
  | [] => ret []
  | CallUpdate d :: cs' => update d ;; run_calls cs'
  | CallDigest :: cs' => x <- digest ;; xs <- run_calls cs' ;; ret (x :: xs)
  | CallReset :: cs' => reset ;; run_calls cs'
  end.

(** [n] calls of [digest] in a row. *)
Fixpoint repeat_digest (n : nat) : M (list bytes) :=
  match n with
  | O => ret []
  | S k => x <- digest ;; xs <- repeat_digest k ;; ret (x :: xs)
  end.

Definition is_empty (d : data) : bool :=
  match d with
  | Bytes [] | Str [] => true
  | _ => false
  end.

(** [with_empty_updates cs cs']: the script [cs'] is [cs] with calls
    [update(b'')] or [update('')] inserted at any places. *)
Inductive with_empty_updates : list call -> list call -> Prop :=
| weu_nil : with_empty_updates [] []
| weu_same c cs cs' :
    with_empty_updates cs cs' -> with_empty_updates (c :: cs) (c :: cs')
| weu_insert d cs cs' :
    is_empty d = true ->
    with_empty_updates cs cs' -> with_empty_updates cs (CallUpdate d :: cs').

(** The code points that UTF-8 cannot encode. *)
Definition surrogate (c : N) : Prop := (0xD800 <= c <= 0xDFFF)%N.

(** ** The engine of the specification

    A second model, written after the words of sections 4.1 to 4.3 of the
    specification and not after the source: words are reduced modulo 2^32,
    the complement is the 32-bit one, the message schedule grows by the
    word that its current length defines, and the engine is a pair of a
    state and a pending buffer that is folded block by block.  No mixing
    function takes part in it.  The specification does not list the initial
    words and the round constants; they are the tables of the class. *)
Module Spec.

(** "right-rotation by [r] is [(x >> r) | (x << (32-r))], masked to 32
    bits" *)
Definition rotr (x r : Z) : Z :=
  Z.lor (Z.shiftr x r) (Z.shiftl x (32 - r)) mod 2 ^ 32.

(** Step 1: sixteen big-endian words. *)
Definition be32 (b0 b1 b2 b3 : byte) : Z :=
  Z_of_byte b0 * 2 ^ 24 + Z_of_byte b1 * 2 ^ 16
  + Z_of_byte b2 * 2 ^ 8 + Z_of_byte b3.

Definition split_words (block : bytes) : list Z :=
  map (fun j => be32 (nth (4 * j) block x00) (nth (4 * j + 1) block x00)
                     (nth (4 * j + 2) block x00) (nth (4 * j + 3) block x00))
      (seq 0 16).

(** Step 2: expansion to 64 words. *)
Definition sigma0 (x : Z) : Z :=
  Z.lxor (Z.lxor (rotr x 7) (rotr x 18)) (Z.shiftr x 3).

Definition sigma1 (x : Z) : Z :=
  Z.lxor (Z.lxor (rotr x 17) (rotr x 19)) (Z.shiftr x 10).

Definition next_word (w : list Z) : Z :=
  let i := length w in
  (nth (i - 16) w 0 + sigma0 (nth (i - 15) w 0)
   + nth (i - 7) w 0 + sigma1 (nth (i - 2) w 0)) mod 2 ^ 32.

Fixpoint expand (n : nat) (w : list Z) : list Z :=
  match n with
  | O => w
  | S k => expand k (w ++ [next_word w])
  end.

(** Step 3: the working variables. *)
Definition load (st : list Z) : regs :=
  (nth 0 st 0, nth 1 st 0, nth 2 st 0, nth 3 st 0,
   nth 4 st 0, nth 5 st 0, nth 6 st 0, nth 7 st 0).

(** Step 4: round [i]. *)
Definition round_step (w : list Z) (r : regs) (i : nat) : regs :=
  let '(a, b, c, d, e, f, g, h) := r in
  let S1 := Z.lxor (Z.lxor (rotr e 6) (rotr e 11)) (rotr e 25) in
  let ch := Z.lxor (Z.land e f) (Z.land (0xFFFFFFFF - e) g) in
  let temp1 := (h + S1 + ch + nth (i mod 16) K 0 + nth i w 0) mod 2 ^ 32 in
  let S0 := Z.lxor (Z.lxor (rotr a 2) (rotr a 13)) (rotr a 22) in
  let maj := Z.lxor (Z.lxor (Z.land a b) (Z.land a c)) (Z.land b c) in
  let temp2 := (S0 + maj) mod 2 ^ 32 in
  ((temp1 + temp2) mod 2 ^ 32, a, b, c, (d + temp1) mod 2 ^ 32, e, f, g).

(** Step 5: Davies-Meyer feed-forward. *)
Definition feed_forward (st : list Z) (r : regs) : list Z :=
  let '(a, b, c, d, e, f, g, h) := r in
  map (fun p => (fst p + snd p) mod 2 ^ 32)
      (combine st [a; b; c; d; e; f; g; h]).

Definition compress (st : list Z) (block : bytes) : list Z :=
  let w := expand 48 (split_words block) in
  feed_forward st (fold_left (round_step w) (seq 0 64) (load st)).

(** Section 4.2: padding. *)
Definition big_endian (n : nat) (v : Z) : bytes :=
  map (fun k => byte_of_Z (v / 256 ^ Z.of_nat (n - 1 - k))) (seq 0 n).

(** "append zero bytes until the total length is congruent to 56 modulo
    64": at most 63 of them. *)
Fixpoint zero_fill (bound : nat) (m : bytes) : bytes :=
  if (length m mod 64 =? 56)%nat then m
  else match bound with
       | O => m
       | S k => zero_fill k (m ++ [x00])
       end.

Definition pad (m : bytes) : bytes :=
  zero_fill 63 (m ++ [x80]) ++ big_endian 8 (Z.of_nat (length m) * 8).

(** Section 4.3: the engine. *)
Definition engine : Type := (list Z * bytes)%type.

Definition init : engine := (INITIAL_HASH, []).

(** The first [n] 64-byte blocks of [l]. *)
Fixpoint chunks (n : nat) (l : bytes) : list bytes :=
  match n with
  | O => []
  | S k => firstn 64 l :: chunks k (skipn 64 l)
  end.

Definition update (eng : engine) (d : bytes) : engine :=
  let buf := snd eng ++ d in
  let q := (length buf / 64)%nat in
  (fold_left compress (chunks q buf) (fst eng), skipn (64 * q) buf).

Definition finalize (eng : engine) : bytes :=
  let p := pad (snd eng) in
  flat_map (big_endian 4)
           (fold_left compress (chunks (length p / 64) p) (fst eng)).

End Spec.

(** All eight working variables are 32-bit words. *)
Definition regs32 (r : regs) : Prop :=
  let '(a, b, c, d, e, f, g, h) := r in
  word32 a /\ word32 b /\ word32 c /\ word32 d /\
  word32 e /\ word32 f /\ word32 g /\ word32 h.

(** ** Who calls whom

    The methods of the class and the two module-level functions, with the
    calls that the body of each makes to the others, read off the source
    line by line. *)
Inductive method : Set :=
| m_init | m_reset | m_rotate_right | m_rotate_left | m_pad_message
| m_mixing_function | m_compress_block | m_update | m_digest | m_hexdigest
| m_hash_string | m_hash_file.

Definition callees (m : method) : list method :=
  match m with
  | m_init => [m_reset]
  | m_reset => []
  | m_rotate_right => []
  | m_rotate_left => []
  | m_pad_message => []
  | m_mixing_function => [m_rotate_left; m_rotate_right]
  | m_compress_block => [m_rotate_right]
  | m_update => [m_compress_block]
  | m_digest => [m_pad_message; m_compress_block]
  | m_hexdigest => [m_digest]
  | m_hash_string => [m_init; m_update; m_hexdigest]
  | m_hash_file => [m_init; m_update; m_hexdigest]
  end.

(** [invokes a b]: running [a] leads, through any number of calls, to a
    call of [b]. *)
Inductive invokes : method -> method -> Prop :=
| invokes_call a b : In b (callees a) -> invokes a b
| invokes_then a b c : In b (callees a) -> invokes b c -> invokes a c.

(** ** The rest of the module: [hexdigest], [hash_string], [hash_file] *)

(** ["0123456789abcdef"[n]], as a code point. *)
Definition hex_digit (n : Z) : N :=
  if n <? 10 then Z.to_N (48 + n) else Z.to_N (87 + n).

(** [bytes.hex()]: two lowercase hexadecimal digits for every byte, the
    high half first. *)
Definition hex (b : bytes) : str :=
  flat_map (fun x => [hex_digit (Z.shiftr (Z_of_byte x) 4);
                      hex_digit (Z.land (Z_of_byte x) 15)]) b.

Definition hexdigest : M str :=
  d <- digest ;;
  ret (hex d).

(** [hash_string]: the engine is local to the call, the result is what
    leaves it. *)
Definition hash_string (message : data) : outcome str :=
  fst ((update message ;; hexdigest) new).

(** What [open(filename, 'rb')] does in [hash_file]: it gives the bytes of
    the file to read, or raises [OSError] ([FileNotFoundError] and the
    like) before any engine work. *)
Inductive file_outcome (A : Type) : Type :=
| Completed (o : outcome A)
| RaisedOSError.
Arguments Completed {A} o.
Arguments RaisedOSError {A}.

(** The size that [hash_file] asks of every [f.read]. *)
Definition READ_SIZE : nat := Z.to_nat 8192.

(** Lines 260-264, with [rest] the bytes that the file object has still to
    deliver: [f.read(8192)] takes up to 8192 of them, and an empty chunk
    ends the loop.  Every turn but the last consumes bytes, so a bound of
    [length rest / 8192 + 1] turns is never reached. *)
Fixpoint hash_file_loop (fuel : nat) (rest : bytes) : M unit :=
  let chunk := firstn READ_SIZE rest in
  let rest := skipn READ_SIZE rest in
  match chunk with
  | [] => ret tt
  | _ :: _ =>
      match fuel with
      | O => lift OutOfFuel
      | S fuel' => update (Bytes chunk) ;; hash_file_loop fuel' rest
      end
  end.

Definition hash_file (fs : str -> option bytes) (filename : str)
  : file_outcome str :=
  match fs filename with
  | None => RaisedOSError
  | Some content =>
      Completed
        (fst ((hash_file_loop (length content / READ_SIZE + 1) content ;;
               hexdigest) new))
  end.

(** The characters of a [hexdigest]. *)
Definition lower_hex (c : N) : Prop :=
  (48 <= c <= 57)%N \/ (97 <= c <= 102)%N.

(** * Proofs *)

(** ** Words and bytes *)

Lemma fold_left_cons_eq {A B} (f : A -> B -> A) (x : B) (l : list B) (a : A) :
  fold_left f (x :: l) a = fold_left f l (f a x).
Proof. reflexivity. Qed.

Lemma MASK32_ones : MASK32 = Z.ones 32.
Proof. reflexivity. Qed.

Lemma land_mask_mod (x : Z) : Z.land x MASK32 = x mod 2 ^ 32.
Proof. rewrite MASK32_ones. apply Z.land_ones. lia. Qed.

Lemma land_mask_word32 (x : Z) : word32 (Z.land x MASK32).
Proof.
  unfold word32. rewrite land_mask_mod.
  pose proof (Z.mod_pos_bound x (2 ^ 32) ltac:(lia)). lia.
Qed.

Lemma land_mask_id (x : Z) : word32 x -> Z.land x MASK32 = x.
Proof.
  unfold word32. intros H. rewrite land_mask_mod.
  apply Z.mod_small. lia.
Qed.

Lemma Z_of_byte_range (b : byte) : 0 <= Z_of_byte b < 256.
Proof.
  unfold Z_of_byte. pose proof (Byte.to_N_bounded b). lia.
Qed.

Lemma Z_of_byte_of_Z (z : Z) : Z_of_byte (byte_of_Z z) = z mod 256.
Proof.
  unfold Z_of_byte, byte_of_Z.
  pose proof (Z.mod_pos_bound z 256 ltac:(lia)) as Hb.
  destruct (Byte.of_N (Z.to_N (z mod 256))) as [b|] eqn:E.
  - apply Byte.to_of_N in E. rewrite E. lia.
  - apply Byte.of_N_None_iff in E. lia.
Qed.

Lemma length_be_digits (n : nat) (v : Z) : length (be_digits n v) = n.
Proof.
  revert v. induction n as [|n IH]; intros v; simpl; [reflexivity|].
  rewrite length_app, IH. simpl. lia.
Qed.

Lemma from_bytes_acc (l : bytes) (acc : Z) :
  fold_left (fun acc b => acc * 256 + Z_of_byte b) l acc =
  acc * 256 ^ Z.of_nat (length l) + from_bytes l.
Proof.
  unfold from_bytes. revert acc.
  induction l as [|b l IH]; intros acc.
  - simpl. lia.
  - cbn [fold_left length]. rewrite IH, (IH (0 * 256 + Z_of_byte b)).
    rewrite Nat2Z.inj_succ, Z.pow_succ_r by lia. lia.
Qed.

Lemma from_bytes_app (l1 l2 : bytes) :
  from_bytes (l1 ++ l2) =
  from_bytes l1 * 256 ^ Z.of_nat (length l2) + from_bytes l2.
Proof.
  unfold from_bytes at 1. rewrite fold_left_app.
  fold (from_bytes l1). apply from_bytes_acc.
Qed.

Lemma from_bytes_be_digits (n : nat) (v : Z) :
  from_bytes (be_digits n v) = v mod 256 ^ Z.of_nat n.
Proof.
  revert v. induction n as [|n IH]; intros v.
  - simpl. rewrite Z.mod_1_r. reflexivity.
  - cbn [be_digits]. rewrite from_bytes_app, IH.
    replace (from_bytes [byte_of_Z v]) with (v mod 256)
      by (unfold from_bytes; simpl; now rewrite Z_of_byte_of_Z).
    simpl length. change (256 ^ Z.of_nat 1) with 256.
    rewrite Nat2Z.inj_succ, Z.pow_succ_r by lia.
    rewrite Z.rem_mul_r by lia. lia.
Qed.

Lemma to_bytes_ok (v : Z) (n : nat) :
  0 <= v < 256 ^ Z.of_nat n -> to_bytes v n = Ret (be_digits n v).
Proof.
  intros H. unfold to_bytes.
  destruct (Z.leb_spec 0 v); [|lia].
  destruct (Z.ltb_spec v (256 ^ Z.of_nat n)); [|lia].
  reflexivity.
Qed.

(** ** The compression step *)

Lemma compress_state_length (st : list Z) (blk : bytes) :
  length (compress_state st blk) = length st.
Proof.
  unfold compress_state.
  do 8 (destruct st as [|? st]; [reflexivity|]).
  destruct st; [|reflexivity].
  destruct (rounds _ _) as [[[[[[[a b] c] d] e] f] g] h]. reflexivity.
Qed.

Lemma compress_state_word32 (st : list Z) (blk : bytes) :
  length st = 8%nat -> Forall word32 (compress_state st blk).
Proof.
  intros H. unfold compress_state.
  do 9 (destruct st as [|? st]; try discriminate H).
  destruct (rounds _ _) as [[[[[[[a b] c] d] e] f] g] h].
  repeat constructor; apply land_mask_word32.
Qed.

Lemma compress_block_run (blk : bytes) (st : list Z) (buf : bytes) (c : Z) :
  length st = 8%nat ->
  _compress_block blk (Engine st buf c) =
  (Ret tt, Engine (compress_state st blk) buf c).
Proof.
  intros H.
  do 9 (destruct st as [|? st]; try discriminate H).
  unfold _compress_block, compress_state.
  unfold bind at 1. cbn [get_state state].
  unfold bind at 1. cbn [unpack8 ret].
  destruct (rounds _ _) as [[[[[[[a b] c0] d] e] f] g] h].
  reflexivity.
Qed.

Lemma compress_block_raises (blk : bytes) (e : engine) :
  length (state e) <> 8%nat ->
  _compress_block blk e = (Raise ValueError, e).
Proof.
  intros H. destruct e as [st buf c]. cbn [state] in H.
  unfold _compress_block.
  unfold bind at 1. cbn [get_state state].
  unfold bind at 1.
  do 9 (destruct st as [|? st]; try reflexivity).
  simpl in H. lia.
Qed.

Lemma fold_compress_length (bs : list bytes) (st : list Z) :
  length (fold_left compress_state bs st) = length st.
Proof.
  revert st. induction bs as [|b bs IH]; intros st; simpl; [reflexivity|].
  rewrite IH. apply compress_state_length.
Qed.

Lemma fold_compress_word32 (bs : list bytes) (st : list Z) :
  length st = 8%nat -> bs <> [] ->
  Forall word32 (fold_left compress_state bs st).
Proof.
  intros Hl Hne.
  destruct bs as [|b bs _] using rev_ind; [congruence|].
  rewrite fold_left_app. simpl.
  apply compress_state_word32. now rewrite fold_compress_length.
Qed.

Lemma for_compress_run {A} (xs : list A) (f : A -> bytes)
      (st : list Z) (buf : bytes) (c : Z) :
  length st = 8%nat ->
  for_ xs (fun x => _compress_block (f x)) (Engine st buf c) =
  (Ret tt, Engine (fold_left compress_state (map f xs) st) buf c).
Proof.
  revert st. induction xs as [|x xs IH]; intros st H; simpl.
  - reflexivity.
  - unfold bind. rewrite compress_block_run by assumption.
    apply IH. now rewrite compress_state_length.
Qed.

(** ** The loop of [update] *)

Lemma absorb_unfold (fuel : nat) (st : list Z) (buf : bytes) :
  absorb fuel st buf =
  if (64 <=? length buf)%nat then
    match fuel with
    | O => (st, buf)
    | S fuel' => absorb fuel' (compress_state st (firstn 64 buf)) (skipn 64 buf)
    end
  else (st, buf).
Proof. destruct fuel; reflexivity. Qed.

Lemma div64_skipn (buf : bytes) :
  (64 <= length buf)%nat ->
  (length buf / 64 = S (length (skipn 64 buf) / 64))%nat.
Proof.
  intros H. rewrite length_skipn.
  replace (length buf) with ((length buf - 64) + 1 * 64)%nat at 1 by lia.
  rewrite Nat.div_add by lia. lia.
Qed.

(** Any bound of at least [length buf / 64] iterations gives the same
    result: the loop leaves through its guard, not through the bound. *)
Lemma absorb_enough_fuel (fuel : nat) (st : list Z) (buf : bytes) :
  (length buf / 64 <= fuel)%nat ->
  absorb fuel st buf = absorb_all st buf.
Proof.
  unfold absorb_all.
  remember (length buf) as n eqn:Hn.
  revert fuel st buf Hn.
  induction n as [n IH] using lt_wf_ind; intros fuel st buf Hn Hf.
  rewrite (absorb_unfold fuel), (absorb_unfold (n / 64)).
  destruct (Nat.leb_spec 64 (length buf)) as [Hge|Hlt]; [|reflexivity].
  pose proof (div64_skipn buf Hge) as Hd. rewrite <- Hn in Hd.
  rewrite Hd. destruct fuel as [|fuel]; [lia|].
  apply (IH (length (skipn 64 buf))).
  - rewrite length_skipn. lia.
  - reflexivity.
  - lia.
Qed.

Lemma absorb_all_unfold (st : list Z) (buf : bytes) :
  absorb_all st buf =
  if (64 <=? length buf)%nat
  then absorb_all (compress_state st (firstn 64 buf)) (skipn 64 buf)
  else (st, buf).
Proof.
  unfold absorb_all at 1. rewrite absorb_unfold.
  destruct (Nat.leb_spec 64 (length buf)) as [Hge|Hlt]; [|reflexivity].
  rewrite (div64_skipn buf Hge). reflexivity.
Qed.

Lemma absorb_all_short (st : list Z) (buf : bytes) :
  (length buf < 64)%nat -> absorb_all st buf = (st, buf).
Proof.
  intros H. rewrite absorb_all_unfold.
  destruct (Nat.leb_spec 64 (length buf)); [lia|reflexivity].
Qed.

(** Induction along the iterations of the loop. *)
Lemma absorb_all_ind (P : list Z -> bytes -> Prop) :
  (forall st buf, (length buf < 64)%nat -> P st buf) ->
  (forall st buf, (64 <= length buf)%nat ->
     P (compress_state st (firstn 64 buf)) (skipn 64 buf) -> P st buf) ->
  forall st buf, P st buf.
Proof.
  intros Hshort Hlong st buf.
  remember (length buf) as n eqn:Hn. revert st buf Hn.
  induction n as [n IH] using lt_wf_ind; intros st buf Hn.
  destruct (Nat.lt_ge_cases (length buf) 64) as [Hlt|Hge].
  - now apply Hshort.
  - apply Hlong; [assumption|].
    apply (IH (length (skipn 64 buf))); [|reflexivity].
    rewrite length_skipn. lia.
Qed.

Lemma absorb_all_buffer_short (st : list Z) (buf : bytes) :
  (length (snd (absorb_all st buf)) <= 63)%nat.
Proof.
  revert st buf. apply absorb_all_ind; intros st buf H.
  - rewrite absorb_all_short by assumption. simpl. lia.
  - intros IH. rewrite absorb_all_unfold.
    destruct (Nat.leb_spec 64 (length buf)); [assumption|lia].
Qed.

Lemma absorb_all_state_length (st : list Z) (buf : bytes) :
  length (fst (absorb_all st buf)) = length st.
Proof.
  revert st buf. apply absorb_all_ind; intros st buf H.
  - now rewrite absorb_all_short by assumption.
  - intros IH. rewrite absorb_all_unfold.
    destruct (Nat.leb_spec 64 (length buf)); [|lia].
    rewrite IH. apply compress_state_length.
Qed.

Lemma absorb_all_state_word32 (st : list Z) (buf : bytes) :
  length st = 8%nat -> Forall word32 st ->
  Forall word32 (fst (absorb_all st buf)).
Proof.
  revert st buf.
  apply (absorb_all_ind (fun st buf =>
           length st = 8%nat -> Forall word32 st ->
           Forall word32 (fst (absorb_all st buf)))); intros st buf H.
  - now rewrite absorb_all_short by assumption.
  - intros IH Hl Hw. rewrite absorb_all_unfold.
    destruct (Nat.leb_spec 64 (length buf)); [|lia].
    apply IH.
    + now rewrite compress_state_length.
    + now apply compress_state_word32.
Qed.

Lemma absorb_all_buffer_length (st : list Z) (buf : bytes) :
  length (snd (absorb_all st buf)) = (length buf mod 64)%nat.
Proof.
  revert st buf. apply absorb_all_ind; intros st buf H.
  - rewrite absorb_all_short by assumption. cbn [snd].
    now rewrite Nat.mod_small.
  - intros IH. rewrite absorb_all_unfold.
    destruct (Nat.leb_spec 64 (length buf)); [|lia].
    rewrite IH, length_skipn.
    replace (length buf) with ((length buf - 64) + 1 * 64)%nat at 2 by lia.
    now rewrite Nat.Div0.mod_add.
Qed.

(** Feeding [buf ++ d] through the loop is the same as feeding [buf], then
    appending [d] to what is left and feeding that. *)
Lemma absorb_all_app (st : list Z) (buf d : bytes) :
  absorb_all st (buf ++ d) =
  absorb_all (fst (absorb_all st buf)) (snd (absorb_all st buf) ++ d).
Proof.
  revert st buf. apply absorb_all_ind; intros st buf H.
  - now rewrite (absorb_all_short st buf) by assumption.
  - intros IH.
    rewrite (absorb_all_unfold st buf), (absorb_all_unfold st (buf ++ d)).
    rewrite length_app.
    destruct (Nat.leb_spec 64 (length buf)); [|lia].
    destruct (Nat.leb_spec 64 (length buf + length d)); [|lia].
    rewrite firstn_app, skipn_app.
    replace (64 - length buf)%nat with 0%nat by lia.
    simpl firstn. simpl (skipn 0 d). rewrite app_nil_r.
    exact IH.
Qed.

Lemma update_loop_run (fuel : nat) (st : list Z) (buf : bytes) (c : Z) :
  length st = 8%nat -> (length buf / 64 <= fuel)%nat ->
  update_loop fuel (Engine st buf c) =
  (Ret tt, Engine (fst (absorb_all st buf)) (snd (absorb_all st buf)) c).
Proof.
  revert st buf. induction fuel as [|fuel IH]; intros st buf Hl Hf.
  - assert (length buf < 64)%nat as Hlt.
    { destruct (Nat.lt_ge_cases (length buf) 64) as [?|Hge]; [assumption|].
      pose proof (div64_skipn buf Hge). lia. }
    rewrite absorb_all_short by assumption.
    cbn [update_loop]. unfold bind. cbn [get_buffer buffer].
    destruct (Nat.leb_spec 64 (length buf)); [lia|reflexivity].
  - rewrite absorb_all_unfold. cbn [update_loop].
    unfold bind at 1. cbn [get_buffer buffer].
    destruct (Nat.leb_spec 64 (length buf)) as [Hge|Hlt]; [|reflexivity].
    unfold bind at 1. cbn [set_buffer state counter].
    unfold bind at 1. rewrite compress_block_run by assumption.
    unfold slice. change (skipn 0 buf) with buf.
    change (64 - 0)%nat with 64%nat.
    apply IH.
    + now rewrite compress_state_length.
    + pose proof (div64_skipn buf Hge). lia.
Qed.

(** ** [update] *)

Lemma update_bytes_run (d : bytes) (st : list Z) (buf : bytes) (c : Z) :
  length st = 8%nat ->
  update (Bytes d) (Engine st buf c) =
  (Ret tt, Engine (fst (absorb_all st (buf ++ d)))
                  (snd (absorb_all st (buf ++ d)))
                  (c + Z.of_nat (length d))).
Proof.
  intros H. unfold update, bind, ret, get_buffer, set_buffer, get_counter,
    set_counter. cbn [state buffer counter].
  now apply update_loop_run.
Qed.

Lemma update_str_encoded (s : str) (d : bytes) (e : engine) :
  encode_utf8 s = Ret d -> update (Str s) e = update (Bytes d) e.
Proof.
  intros H. unfold update, bind at 1, lift. rewrite H.
  reflexivity.
Qed.

Lemma update_str_raises (s : str) (x : exn) (e : engine) :
  encode_utf8 s = Raise x -> update (Str s) e = (Raise x, e).
Proof.
  intros H. unfold update, bind at 1, lift. now rewrite H.
Qed.

(** ** Padding *)

Lemma pad_message_ok (m : bytes) :
  Z.of_nat (length m) * 8 < 2 ^ 64 -> _pad_message m = Ret (padded m).
Proof.
  intros H. unfold _pad_message, padded, padding_len. cbv zeta.
  rewrite to_bytes_ok; [reflexivity|].
  change (256 ^ Z.of_nat 8) with (2 ^ 64). lia.
Qed.

Lemma length_padded (m : bytes) :
  length (padded m) =
  (length m + 1 + padding_len (length m) + 8)%nat.
Proof.
  unfold padded.
  rewrite !length_app, repeat_length, length_be_digits. simpl length. lia.
Qed.

Lemma padding_len_spec (n : nat) :
  ((n + 1 + padding_len n) mod 64 = 56)%nat /\ (padding_len n < 64)%nat.
Proof.
  unfold padding_len.
  pose proof (Z.mod_pos_bound (56 - (Z.of_nat n + 1) mod 64) 64 ltac:(lia))
    as Hb.
  split; [|lia].
  apply Nat2Z.inj. rewrite Nat2Z.inj_mod, !Nat2Z.inj_add, Z2Nat.id by lia.
  change (Z.of_nat 64) with 64. change (Z.of_nat 1) with 1.
  change (Z.of_nat 56) with 56.
  pose proof (Z.div_mod (Z.of_nat n + 1) 64 ltac:(lia)) as Hx.
  pose proof (Z.div_mod (56 - (Z.of_nat n + 1) mod 64) 64 ltac:(lia)) as Hk.
  remember ((Z.of_nat n + 1) mod 64) as r.
  remember ((56 - r) mod 64) as k.
  replace (Z.of_nat n + 1 + k)
    with (56 + ((Z.of_nat n + 1) / 64 - (56 - r) / 64) * 64) by lia.
  rewrite Z_mod_plus_full. reflexivity.
Qed.

Lemma length_padded_mod (m : bytes) :
  (length (padded m) mod 64 = 0)%nat /\ (0 < length (padded m))%nat.
Proof.
  rewrite length_padded.
  destruct (padding_len_spec (length m)) as [H _].
  split; [|lia].
  rewrite Nat.Div0.add_mod, H. reflexivity.
Qed.

(** ** [digest] *)

Lemma range_nonempty (stop step : nat) :
  (0 < stop)%nat -> (0 < step)%nat -> range 0 stop step <> [].
Proof.
  intros Hs Hp. unfold range.
  assert (1 <= (stop - 0 + (step - 1)) / step)%nat as Hq.
  { apply Nat.div_le_lower_bound; lia. }
  destruct ((stop - 0 + (step - 1)) / step)%nat; [lia|]. discriminate.
Qed.

Lemma blocks_nonempty (p : bytes) : (0 < length p)%nat -> blocks p <> [].
Proof.
  intros H. unfold blocks.
  pose proof (range_nonempty (length p) 64 H ltac:(lia)) as Hr.
  destruct (range 0 (length p) 64); [congruence|discriminate].
Qed.

Lemma encode_run (st : list Z) (acc : bytes) (e : engine) :
  Forall word32 st ->
  for_acc st acc
    (fun result word => wb <- lift (to_bytes word 4) ;; ret (result ++ wb)) e
  = (Ret (acc ++ encode_state st), e).
Proof.
  intros H. revert acc.
  induction H as [|w st Hw _ IH]; intros acc.
  - unfold encode_state. simpl. now rewrite app_nil_r.
  - cbn [for_acc]. unfold bind at 1. unfold bind at 1, lift.
    rewrite to_bytes_ok by (unfold word32 in Hw;
                            change (256 ^ Z.of_nat 4) with (2 ^ 32); lia).
    unfold ret at 1. rewrite IH.
    unfold encode_state. cbn [map concat]. now rewrite app_assoc.
Qed.

Lemma length_encode_state (st : list Z) :
  length (encode_state st) = (4 * length st)%nat.
Proof.
  unfold encode_state. induction st as [|w st IH]; [reflexivity|].
  cbn [map concat length]. rewrite length_app, length_be_digits, IH. lia.
Qed.

Lemma digest_run (st : list Z) (buf : bytes) (c : Z) :
  length st = 8%nat -> Z.of_nat (length buf) * 8 < 2 ^ 64 ->
  digest (Engine st buf c) =
  (Ret (digest_of st (padded buf)), Engine st buf c).
Proof.
  intros Hl Hb. unfold digest.
  unfold bind at 1. cbn [get_state state].
  unfold bind at 1. cbn [get_buffer buffer].
  unfold bind at 1, lift at 1. rewrite pad_message_ok by assumption.
  unfold bind at 1. cbn [get_state state].
  unfold bind at 1. rewrite for_compress_run by assumption.
  fold (blocks (padded buf)).
  unfold bind at 1. cbn [get_state state].
  unfold bind at 1. rewrite encode_run.
  - reflexivity.
  - apply fold_compress_word32; [assumption|].
    apply blocks_nonempty, length_padded_mod.
Qed.

Lemma length_digest_of (st : list Z) (p : bytes) :
  length st = 8%nat -> length (digest_of st p) = 32%nat.
Proof.
  intros H. unfold digest_of.
  now rewrite length_encode_state, fold_compress_length, H.
Qed.

(** ** The engine as a whole *)

Lemma new_eq : new = Engine INITIAL_HASH [] 0.
Proof. reflexivity. Qed.

Lemma reset_run (e : engine) : reset e = (Ret tt, new).
Proof. reflexivity. Qed.

Lemma engine_inv_new : engine_inv new.
Proof.
  rewrite new_eq. unfold engine_inv. cbn [state buffer].
  split; [reflexivity|]. split; [|simpl; lia].
  unfold INITIAL_HASH, word32. repeat constructor; lia.
Qed.

Lemma update_bytes_feed (d : bytes) (e : engine) :
  length (state e) = 8%nat -> update (Bytes d) e = (Ret tt, feed e d).
Proof.
  destruct e as [st buf c]. cbn [state]. intros H.
  now rewrite update_bytes_run.
Qed.

Lemma feed_state_length (e : engine) (d : bytes) :
  length (state (feed e d)) = length (state e).
Proof. unfold feed. cbn [state]. apply absorb_all_state_length. Qed.

Lemma feed_buffer_short (e : engine) (d : bytes) :
  (length (buffer (feed e d)) <= 63)%nat.
Proof. unfold feed. cbn [buffer]. apply absorb_all_buffer_short. Qed.

Lemma feed_inv (e : engine) (d : bytes) :
  length (state e) = 8%nat -> Forall word32 (state e) ->
  engine_inv (feed e d).
Proof.
  intros Hl Hw. unfold engine_inv.
  rewrite feed_state_length. split; [assumption|].
  split; [|apply feed_buffer_short].
  unfold feed. cbn [state]. now apply absorb_all_state_word32.
Qed.

Lemma feed_nil (e : engine) :
  (length (buffer e) <= 63)%nat -> feed e [] = e.
Proof.
  destruct e as [st buf c]. unfold feed. cbn [state buffer counter].
  intros H. rewrite app_nil_r, absorb_all_short by lia.
  cbn [fst snd length]. f_equal. lia.
Qed.

Lemma feed_app (e : engine) (a b : bytes) :
  feed (feed e a) b = feed e (a ++ b).
Proof.
  unfold feed. cbn [state buffer counter].
  rewrite app_assoc, (absorb_all_app (state e) (buffer e ++ a) b).
  f_equal. rewrite length_app. lia.
Qed.

Lemma feed_concat (e : engine) (chunks : list bytes) :
  (length (buffer e) <= 63)%nat ->
  fold_left feed chunks e = feed e (concat chunks).
Proof.
  revert e. induction chunks as [|c cs IH]; intros e H.
  - simpl. symmetry. now apply feed_nil.
  - cbn [fold_left concat]. rewrite IH by apply feed_buffer_short.
    apply feed_app.
Qed.

Lemma fold_feed_state_length (chunks : list bytes) (e : engine) :
  length (state (fold_left feed chunks e)) = length (state e).
Proof.
  revert e. induction chunks as [|c cs IH]; intros e; [reflexivity|].
  cbn [fold_left]. rewrite IH. apply feed_state_length.
Qed.

Lemma updates_run (chunks : list bytes) (e : engine) :
  length (state e) = 8%nat ->
  for_ chunks (fun c => update (Bytes c)) e =
  (Ret tt, fold_left feed chunks e).
Proof.
  revert e. induction chunks as [|c cs IH]; intros e H; [reflexivity|].
  cbn [for_ fold_left]. unfold bind.
  rewrite update_bytes_feed by assumption.
  apply IH. now rewrite feed_state_length.
Qed.

Lemma digest_ok (e : engine) :
  length (state e) = 8%nat -> (length (buffer e) <= 63)%nat ->
  digest e = (Ret (digest_of (state e) (padded (buffer e))), e).
Proof.
  destruct e as [st buf c]. cbn [state buffer]. intros Hl Hb.
  apply digest_run; [assumption|lia].
Qed.

Lemma encode_utf8_no_fuel (s : str) : encode_utf8 s <> OutOfFuel.
Proof.
  induction s as [|c s IH]; [discriminate|].
  cbn [encode_utf8]. unfold utf8_encode_char.
  repeat match goal with
         | |- context [if ?b then _ else _] => destruct b
         end;
    destruct (encode_utf8 s); cbn [obind]; congruence.
Qed.

(** The bound given to the loop is never what ends it. *)
Lemma update_loop_enough_fuel (fuel : nat) (e : engine) :
  (length (buffer e) / 64 <= fuel)%nat ->
  fst (update_loop fuel e) <> OutOfFuel.
Proof.
  destruct e as [st buf c]. cbn [buffer]. intros Hf.
  destruct (Nat.eq_dec (length st) 8) as [Hl|Hl].
  - now rewrite update_loop_run.
  - destruct fuel as [|fuel]; cbn [update_loop]; unfold bind at 1;
      cbn [get_buffer buffer];
      destruct (Nat.leb_spec 64 (length buf)) as [Hge|Hlt];
      try discriminate.
    + pose proof (div64_skipn buf Hge). lia.
    + unfold bind at 1. cbn [set_buffer state counter].
      unfold bind at 1. rewrite compress_block_raises by assumption.
      discriminate.
Qed.

Lemma update_enough_fuel (d : data) (e : engine) :
  fst (update d e) <> OutOfFuel.
Proof.
  assert (forall b, fst (update (Bytes b) e) <> OutOfFuel) as Hb.
  { intros b. destruct e as [st buf c].
    unfold update, bind, ret, get_buffer, set_buffer, get_counter,
      set_counter. cbn [state buffer counter].
    apply update_loop_enough_fuel. cbn [buffer]. lia. }
  destruct d as [b|s]; [apply Hb|].
  destruct (encode_utf8 s) as [b|x|] eqn:E.
  - rewrite (update_str_encoded s b e E). apply Hb.
  - rewrite (update_str_raises s x e E). discriminate.
  - now apply encode_utf8_no_fuel in E.
Qed.

Lemma update_inv (d : data) (e : engine) :
  engine_inv e -> engine_inv (snd (update d e)).
Proof.
  intros (Hl & Hw & Hb).
  destruct d as [b|s].
  - rewrite update_bytes_feed by assumption. now apply feed_inv.
  - destruct (encode_utf8 s) as [b|x|] eqn:E.
    + rewrite (update_str_encoded s b e E).
      rewrite update_bytes_feed by assumption. now apply feed_inv.
    + rewrite (update_str_raises s x e E). now repeat split.
    + now apply encode_utf8_no_fuel in E.
Qed.

Lemma digest_inv (e : engine) :
  engine_inv e -> engine_inv (snd (digest e)).
Proof.
  intros H. pose proof H as (Hl & Hw & Hb).
  now rewrite digest_ok.
Qed.

Lemma reachable_inv (e : engine) : reachable e -> engine_inv e.
Proof.
  induction 1 as [|e d _ IH|e _ IH|e _ IH].
  - apply engine_inv_new.
  - now apply update_inv.
  - now apply digest_inv.
  - rewrite reset_run. apply engine_inv_new.
Qed.

Lemma update_empty (d : data) (e : engine) :
  is_empty d = true -> (length (buffer e) <= 63)%nat ->
  update d e = (Ret tt, e).
Proof.
  intros Hd Hb.
  assert (update (Bytes []) e = (Ret tt, e)) as H.
  { destruct e as [st buf c]. cbn [buffer] in Hb.
    unfold update, bind, ret, get_buffer, set_buffer, get_counter,
      set_counter. cbn [state buffer counter length].
    rewrite app_nil_r, Z.add_0_r.
    rewrite Nat.div_small by lia. cbn [update_loop].
    unfold bind. cbn [get_buffer buffer].
    destruct (Nat.leb_spec 64 (length buf)); [lia|reflexivity]. }
  destruct d as [[|b bs]|[|c s]]; try discriminate Hd.
  - exact H.
  - now rewrite (update_str_encoded [] [] e eq_refl).
Qed.

Lemma run_calls_with_empty_updates (cs cs' : list call) :
  with_empty_updates cs cs' ->
  forall e : engine, engine_inv e -> run_calls cs' e = run_calls cs e.
Proof.
  induction 1 as [|c cs cs' _ IH|d cs cs' Hd _ IH]; intros e He.
  - reflexivity.
  - pose proof He as (Hl & Hw & Hb).
    destruct c as [d| |]; cbn [run_calls]; unfold bind at 1;
      symmetry; unfold bind at 1; symmetry.
    + pose proof (update_inv d e He) as Hi.
      destruct (update d e) as [[[]| |] e1]; cbn [snd] in Hi;
        [now apply IH|reflexivity|reflexivity].
    + rewrite digest_ok by assumption.
      unfold bind. now rewrite IH.
    + rewrite reset_run. apply IH, engine_inv_new.
  - pose proof He as (Hl & Hw & Hb).
    cbn [run_calls]. unfold bind at 1.
    rewrite update_empty by assumption. now apply IH.
Qed.

(** ** Text input *)

Lemma utf8_encode_char_surrogate (c : N) :
  surrogate c -> utf8_encode_char c = Raise UnicodeEncodeError.
Proof.
  unfold surrogate, utf8_encode_char. intros H. cbv zeta.
  destruct (Z.ltb_spec (Z.of_N c) 128); [lia|].
  destruct (Z.ltb_spec (Z.of_N c) 2048); [lia|].
  destruct (Z.leb_spec 55296 (Z.of_N c)); [|lia].
  destruct (Z.leb_spec (Z.of_N c) 57343); [|lia].
  reflexivity.
Qed.

Lemma utf8_encode_char_ok (c : N) :
  ~ surrogate c -> exists bs, utf8_encode_char c = Ret bs.
Proof.
  unfold surrogate, utf8_encode_char. intros H. cbv zeta.
  destruct (Z.ltb_spec (Z.of_N c) 128); [eauto|].
  destruct (Z.ltb_spec (Z.of_N c) 2048); [eauto|].
  destruct (Z.leb_spec 55296 (Z.of_N c));
    destruct (Z.leb_spec (Z.of_N c) 57343); cbn [andb];
    try lia; destruct (Z.ltb_spec (Z.of_N c) 65536); eauto.
Qed.

Lemma surrogate_cases (c : N) : surrogate c \/ ~ surrogate c.
Proof. unfold surrogate. lia. Qed.

Lemma encode_utf8_ok (s : str) :
  Forall (fun c => ~ surrogate c) s -> exists bs, encode_utf8 s = Ret bs.
Proof.
  induction 1 as [|c s Hc _ [r IH]]; [now exists []|].
  destruct (utf8_encode_char_ok c Hc) as [bs Hbs].
  exists (bs ++ r). cbn [encode_utf8]. now rewrite Hbs, IH.
Qed.

Lemma encode_utf8_surrogate (s : str) :
  Exists surrogate s -> encode_utf8 s = Raise UnicodeEncodeError.
Proof.
  induction 1 as [c s Hc|c s _ IH]; cbn [encode_utf8].
  - now rewrite utf8_encode_char_surrogate.
  - destruct (surrogate_cases c) as [Hc|Hc].
    + now rewrite utf8_encode_char_surrogate.
    + destruct (utf8_encode_char_ok c Hc) as [bs ->]. now rewrite IH.
Qed.

(** ** More on padding *)

Lemma padding_len_least (n j : nat) :
  (j < padding_len n)%nat -> ((n + 1 + j) mod 64 <> 56)%nat.
Proof.
  intros Hj Hm.
  destruct (padding_len_spec n) as [Hk Hlt].
  pose proof (Nat.div_mod_eq (n + 1 + j) 64).
  pose proof (Nat.div_mod_eq (n + 1 + padding_len n) 64).
  lia.
Qed.

Lemma from_bytes_length_field (n : nat) :
  Z.of_nat n * 8 < 2 ^ 64 ->
  from_bytes (be_digits 8 (Z.of_nat n * 8)) = 8 * Z.of_nat n.
Proof.
  intros H. rewrite from_bytes_be_digits.
  change (256 ^ Z.of_nat 8) with (2 ^ 64).
  rewrite Z.mod_small; lia.
Qed.

(** What is left in the buffer does not depend on the state. *)
Lemma absorb_all_buffer (st : list Z) (buf : bytes) :
  snd (absorb_all st buf) = skipn (64 * (length buf / 64)) buf.
Proof.
  revert st buf. apply absorb_all_ind; intros st buf H.
  - rewrite absorb_all_short by assumption.
    now rewrite Nat.div_small by assumption.
  - intros IH. rewrite absorb_all_unfold.
    destruct (Nat.leb_spec 64 (length buf)); [|lia].
    rewrite IH, skipn_skipn, (div64_skipn buf H).
    f_equal. lia.
Qed.

Lemma buffer_after_prefix (st : list Z) (p t : bytes) :
  (length p mod 64 = 0)%nat ->
  snd (absorb_all st (p ++ t)) = skipn (64 * (length t / 64)) t.
Proof.
  intros Hp. rewrite absorb_all_buffer, length_app.
  pose proof (Nat.div_mod_eq (length p) 64) as Hq. rewrite Hp in Hq.
  replace (length p + length t)%nat
    with (length t + (length p / 64) * 64)%nat by lia.
  rewrite Nat.div_add by lia.
  rewrite skipn_app.
  rewrite skipn_all2 by lia. cbn [app]. f_equal. lia.
Qed.

(** ** The compression step against the specification *)

Lemma rotate_right_spec (x r : Z) :
  word32 x -> _rotate_right x r = Spec.rotr x r.
Proof.
  intros H. unfold _rotate_right, Spec.rotr. cbv zeta.
  now rewrite (land_mask_id x H), land_mask_mod.
Qed.

Lemma word32_0 : word32 0.
Proof. unfold word32. lia. Qed.

Lemma getitem_word32 (ws : list Z) (i : nat) :
  Forall word32 ws -> word32 (getitem ws i).
Proof.
  intros H. unfold getitem.
  destruct (nth_in_or_default i ws 0) as [Hin| ->]; [|apply word32_0].
  rewrite Forall_forall in H. now apply H.
Qed.

Lemma lnot_land_word32 (e g : Z) :
  word32 e -> word32 g ->
  Z.land (Z.lnot e) g = Z.land (0xFFFFFFFF - e) g.
Proof.
  intros He Hg.
  assert (Z.land (Z.lnot e) MASK32 = 0xFFFFFFFF - e) as Hn.
  { rewrite land_mask_mod. unfold word32 in He.
    replace (Z.lnot e) with ((0xFFFFFFFF - e) + (-1) * 2 ^ 32)
      by (unfold Z.lnot; lia).
    rewrite Z_mod_plus_full. apply Z.mod_small. lia. }
  rewrite <- (land_mask_id g Hg) at 1.
  rewrite (Z.land_comm g MASK32), Z.land_assoc, Hn. reflexivity.
Qed.

Lemma from_bytes_bound (l : bytes) :
  0 <= from_bytes l < 256 ^ Z.of_nat (length l).
Proof.
  induction l as [|b l IH] using rev_ind.
  - unfold from_bytes. simpl. lia.
  - rewrite from_bytes_app, length_app, Nat2Z.inj_add, Z.pow_add_r by lia.
    replace (from_bytes [b]) with (Z_of_byte b)
      by (unfold from_bytes; simpl; lia).
    simpl length. change (256 ^ Z.of_nat 1) with 256.
    pose proof (Z_of_byte_range b). nia.
Qed.

Lemma firstn_skipn_cons {A} (d : A) (n i : nat) (l : list A) :
  (i < length l)%nat ->
  firstn (S n) (skipn i l) = nth i l d :: firstn n (skipn (S i) l).
Proof.
  revert l. induction i as [|i IH]; intros l H.
  - destruct l as [|x l]; [simpl in H; lia|reflexivity].
  - destruct l as [|x l]; [simpl in H; lia|].
    simpl in H. cbn [skipn nth]. apply IH. lia.
Qed.

Lemma slice4 (l : bytes) (i : nat) :
  (i + 4 <= length l)%nat ->
  slice l i (i + 4) =
  [nth i l x00; nth (i + 1) l x00; nth (i + 2) l x00; nth (i + 3) l x00].
Proof.
  intros H. unfold slice.
  replace (i + 4 - i)%nat with 4%nat by lia.
  rewrite (firstn_skipn_cons x00) by lia.
  rewrite (firstn_skipn_cons x00) by lia.
  rewrite (firstn_skipn_cons x00) by lia.
  rewrite (firstn_skipn_cons x00) by lia.
  rewrite firstn_O.
  replace (S i) with (i + 1)%nat by lia.
  replace (S (i + 1)) with (i + 2)%nat by lia.
  replace (S (i + 2)) with (i + 3)%nat by lia.
  reflexivity.
Qed.

Lemma from_bytes_be32 (b0 b1 b2 b3 : byte) :
  from_bytes [b0; b1; b2; b3] = Spec.be32 b0 b1 b2 b3.
Proof.
  unfold from_bytes, Spec.be32. cbn [fold_left]. lia.
Qed.

Lemma block_words_spec (block : bytes) :
  length block = 64%nat -> block_words block = Spec.split_words block.
Proof.
  intros H. unfold block_words, Spec.split_words.
  change (range 0 64 4) with (map (fun k => (0 + k * 4)%nat) (seq 0 16)).
  rewrite map_map. apply map_ext_in. intros k Hk.
  apply in_seq in Hk.
  rewrite slice4 by lia.
  rewrite from_bytes_be32.
  replace (0 + k * 4)%nat with (4 * k)%nat by lia. reflexivity.
Qed.

Lemma block_words_word32 (block : bytes) : Forall word32 (block_words block).
Proof.
  unfold block_words. apply Forall_forall. intros w Hw.
  apply in_map_iff in Hw. destruct Hw as (i & <- & _).
  pose proof (from_bytes_bound (slice block i (i + 4))) as Hb.
  assert (length (slice block i (i + 4)) <= 4)%nat as Hl.
  { unfold slice. rewrite length_firstn. lia. }
  assert (256 ^ Z.of_nat (length (slice block i (i + 4))) <= 256 ^ 4).
  { apply Z.pow_le_mono_r; lia. }
  unfold word32. lia.
Qed.

Lemma length_block_words (block : bytes) : length (block_words block) = 16%nat.
Proof. unfold block_words. now rewrite length_map. Qed.

Lemma length_schedule_fold (l : list nat) (ws : list Z) :
  length (fold_left schedule_step l ws) = (length ws + length l)%nat.
Proof.
  revert ws. induction l as [|i l IH]; intros ws; [simpl; lia|].
  rewrite fold_left_cons_eq, IH. unfold schedule_step.
  rewrite length_app. simpl length. lia.
Qed.

(** Every [words[i]] of the round loop is in range. *)
Lemma length_schedule (block : bytes) : length (schedule block) = 64%nat.
Proof.
  unfold schedule.
  now rewrite length_schedule_fold, length_block_words, length_seq.
Qed.

Lemma schedule_step_spec (ws : list Z) (i : nat) :
  length ws = i -> Forall word32 ws ->
  schedule_step ws i = ws ++ [Spec.next_word ws].
Proof.
  intros Hl Hw. unfold schedule_step, Spec.next_word, Spec.sigma0, Spec.sigma1.
  cbv zeta. rewrite Hl.
  rewrite !rotate_right_spec by now apply getitem_word32.
  now rewrite land_mask_mod.
Qed.

Lemma next_word_word32 (ws : list Z) : word32 (Spec.next_word ws).
Proof.
  unfold Spec.next_word. cbv zeta.
  rewrite <- land_mask_mod. apply land_mask_word32.
Qed.

Lemma schedule_fold_spec (n i : nat) (ws : list Z) :
  length ws = i -> Forall word32 ws ->
  fold_left schedule_step (seq i n) ws = Spec.expand n ws.
Proof.
  revert i ws. induction n as [|n IH]; intros i ws Hl Hw; [reflexivity|].
  cbn [seq fold_left Spec.expand].
  rewrite schedule_step_spec by assumption.
  apply IH.
  - rewrite length_app. simpl. lia.
  - apply Forall_app. split; [assumption|].
    constructor; [apply next_word_word32|constructor].
Qed.

Lemma schedule_spec (block : bytes) :
  length block = 64%nat ->
  schedule block = Spec.expand 48 (Spec.split_words block).
Proof.
  intros H. unfold schedule.
  rewrite schedule_fold_spec.
  - now rewrite block_words_spec.
  - apply length_block_words.
  - apply block_words_word32.
Qed.

Lemma round_spec (ws : list Z) (r : regs) (i : nat) :
  regs32 r ->
  round ws r i = Spec.round_step ws r i /\ regs32 (round ws r i).
Proof.
  destruct r as [[[[[[[a b] c] d] e] f] g] h].
  intros (Ha & Hb & Hc & Hd & He & Hf & Hg & Hh).
  unfold round, Spec.round_step. cbv zeta.
  rewrite !rotate_right_spec by assumption.
  rewrite (lnot_land_word32 e g He Hg).
  unfold getitem. rewrite !land_mask_mod.
  split; [reflexivity|].
  unfold regs32. rewrite <- !land_mask_mod.
  repeat match goal with |- _ /\ _ => apply conj end;
    try assumption; apply land_mask_word32.
Qed.

Lemma rounds_fold_spec (ws : list Z) (l : list nat) (r : regs) :
  regs32 r ->
  fold_left (round ws) l r = fold_left (Spec.round_step ws) l r.
Proof.
  revert r. induction l as [|i l IH]; intros r Hr; [reflexivity|].
  cbn [fold_left].
  destruct (round_spec ws r i Hr) as [Heq Hinv].
  rewrite <- Heq. now apply IH.
Qed.

Lemma compress_state_spec (st : list Z) (block : bytes) :
  length st = 8%nat -> Forall word32 st -> length block = 64%nat ->
  compress_state st block = Spec.compress st block.
Proof.
  intros Hl Hw Hb.
  do 9 (destruct st as [|? st]; try discriminate Hl).
  unfold compress_state, Spec.compress. cbv zeta.
  unfold Spec.load. cbn [nth].
  rewrite schedule_spec by assumption.
  unfold rounds. rewrite rounds_fold_spec.
  - destruct (fold_left _ _ _) as [[[[[[[a b] c] d] e] f] g] h].
    unfold Spec.feed_forward. cbn [combine map fst snd].
    now rewrite !land_mask_mod.
  - unfold regs32.
    repeat match goal with
           | H : Forall _ (_ :: _) |- _ => inversion H; subst; clear H
           end.
    repeat match goal with |- _ /\ _ => apply conj end; assumption.
Qed.

(** ** The whole engine against the specification *)

Lemma big_endian_be_digits (n : nat) (v : Z) :
  Spec.big_endian n v = be_digits n v.
Proof.
  unfold Spec.big_endian. revert v.
  induction n as [|n IH]; intros v; [reflexivity|].
  cbn [be_digits]. rewrite seq_S, map_app. cbn [map plus].
  replace (S n - 1 - n)%nat with 0%nat by lia.
  change (256 ^ Z.of_nat 0) with 1. rewrite Z.div_1_r.
  f_equal. rewrite <- IH. apply map_ext_in. intros k Hk.
  apply in_seq in Hk. f_equal.
  replace (S n - 1 - k)%nat with (S (n - 1 - k)) by lia.
  rewrite Nat2Z.inj_succ, Z.pow_succ_r by lia.
  rewrite Z.div_div by lia. reflexivity.
Qed.

Lemma zero_fill_spec (k bound : nat) (m : bytes) :
  ((length m + k) mod 64 = 56)%nat ->
  (forall j, (j < k)%nat -> ((length m + j) mod 64 <> 56)%nat) ->
  (k <= bound)%nat ->
  Spec.zero_fill bound m = m ++ repeat x00 k.
Proof.
  revert bound m. induction k as [|k IH]; intros bound m Hk Hleast Hb.
  - rewrite Nat.add_0_r in Hk.
    destruct bound; cbn [Spec.zero_fill repeat]; rewrite Hk;
      cbn [Nat.eqb]; now rewrite app_nil_r.
  - destruct bound as [|bound]; [lia|].
    cbn [Spec.zero_fill].
    pose proof (Hleast 0%nat ltac:(lia)) as H0. rewrite Nat.add_0_r in H0.
    destruct (Nat.eqb_spec (length m mod 64) 56) as [E|_]; [contradiction|].
    rewrite (IH bound (m ++ [x00])).
    + rewrite <- app_assoc. reflexivity.
    + rewrite length_app. simpl length.
      now replace (length m + 1 + k)%nat with (length m + S k)%nat by lia.
    + intros j Hj. rewrite length_app. simpl length.
      replace (length m + 1 + j)%nat with (length m + S j)%nat by lia.
      apply Hleast. lia.
    + lia.
Qed.

Lemma pad_spec (m : bytes) : Spec.pad m = padded m.
Proof.
  unfold Spec.pad, padded.
  rewrite big_endian_be_digits. f_equal.
  destruct (padding_len_spec (length m)) as [Hk Hlt].
  apply zero_fill_spec.
  - rewrite length_app. simpl length. exact Hk.
  - intros j Hj. rewrite length_app. simpl length.
    now apply padding_len_least.
  - lia.
Qed.

Lemma absorb_all_chunks (st : list Z) (buf : bytes) :
  absorb_all st buf =
  (fold_left compress_state (Spec.chunks (length buf / 64) buf) st,
   skipn (64 * (length buf / 64)) buf).
Proof.
  rewrite (surjective_pairing (absorb_all st buf)).
  rewrite absorb_all_buffer. f_equal.
  revert st buf. apply absorb_all_ind; intros st buf H.
  - rewrite absorb_all_short by assumption.
    now rewrite Nat.div_small by assumption.
  - intros IH. rewrite absorb_all_unfold.
    destruct (Nat.leb_spec 64 (length buf)); [|lia].
    rewrite IH, (div64_skipn buf H). reflexivity.
Qed.

Lemma chunks_length (n : nat) (l : bytes) :
  (n <= length l / 64)%nat ->
  Forall (fun b => length b = 64%nat) (Spec.chunks n l).
Proof.
  revert l. induction n as [|n IH]; intros l H; [constructor|].
  assert (64 <= length l)%nat as Hge.
  { destruct (Nat.lt_ge_cases (length l) 64) as [Hlt|?]; [|assumption].
    rewrite Nat.div_small in H by assumption. lia. }
  cbn [Spec.chunks]. constructor.
  - rewrite length_firstn. lia.
  - apply IH. pose proof (div64_skipn l Hge). lia.
Qed.

Lemma fold_compress_spec (bs : list bytes) (st : list Z) :
  length st = 8%nat -> Forall word32 st ->
  Forall (fun b => length b = 64%nat) bs ->
  fold_left compress_state bs st = fold_left Spec.compress bs st.
Proof.
  intros Hl Hw Hbs. revert st Hl Hw.
  induction Hbs as [|b bs Hb _ IH]; intros st Hl Hw; [reflexivity|].
  rewrite !fold_left_cons_eq.
  rewrite <- (compress_state_spec st b) by assumption.
  apply IH.
  - now rewrite compress_state_length.
  - now apply compress_state_word32.
Qed.

Lemma chunks_map (n : nat) (l : bytes) :
  Spec.chunks n l =
  map (fun k => firstn 64 (skipn (k * 64) l)) (seq 0 n).
Proof.
  revert l. induction n as [|n IH]; intros l; [reflexivity|].
  cbn [Spec.chunks seq map]. f_equal.
  rewrite IH, <- seq_shift, map_map.
  apply map_ext. intros k. rewrite skipn_skipn.
  f_equal. f_equal. lia.
Qed.

Lemma blocks_chunks (p : bytes) :
  (length p mod 64 = 0)%nat -> blocks p = Spec.chunks (length p / 64) p.
Proof.
  intros H. rewrite chunks_map. unfold blocks, range.
  rewrite map_map.
  pose proof (Nat.div_mod_eq (length p) 64) as Hd. rewrite H in Hd.
  replace (length p - 0 + (64 - 1))%nat
    with (63 + (length p / 64) * 64)%nat by lia.
  rewrite Nat.div_add by lia.
  replace (63 / 64)%nat with 0%nat by reflexivity.
  apply map_ext. intros k. unfold slice.
  f_equal. lia.
Qed.

Lemma feed_spec (e : engine) (d : bytes) :
  length (state e) = 8%nat -> Forall word32 (state e) ->
  (state (feed e d), buffer (feed e d)) = Spec.update (state e, buffer e) d.
Proof.
  intros Hl Hw. unfold feed, Spec.update. cbn [state buffer fst snd].
  rewrite absorb_all_chunks. cbn [fst snd]. f_equal.
  apply fold_compress_spec; try assumption.
  now apply chunks_length.
Qed.

Lemma fold_feed_spec (chunks : list bytes) (e : engine) :
  length (state e) = 8%nat -> Forall word32 (state e) ->
  (state (fold_left feed chunks e), buffer (fold_left feed chunks e)) =
  fold_left Spec.update chunks (state e, buffer e).
Proof.
  revert e. induction chunks as [|c cs IH]; intros e Hl Hw; [reflexivity|].
  cbn [fold_left]. rewrite <- feed_spec by assumption.
  destruct (feed_inv e c Hl Hw) as (Hl' & Hw' & _).
  now apply IH.
Qed.

Lemma digest_of_spec (st : list Z) (buf : bytes) :
  length st = 8%nat -> Forall word32 st ->
  digest_of st (padded buf) = Spec.finalize (st, buf).
Proof.
  intros Hl Hw. unfold digest_of, Spec.finalize. cbn [fst snd].
  rewrite pad_spec.
  destruct (length_padded_mod buf) as [H0 _].
  rewrite blocks_chunks by assumption.
  rewrite fold_compress_spec by (assumption || now apply chunks_length).
  unfold encode_state. rewrite <- flat_map_concat_map.
  apply flat_map_ext. intros w. symmetry. apply big_endian_be_digits.
Qed.

(** ** The call graph *)

Lemma callees_avoid_mixing (a b : method) :
  a <> m_mixing_function -> In b (callees a) -> b <> m_mixing_function.
Proof.
  intros Ha Hin. destruct a; cbn [callees In] in Hin;
    try contradiction; try congruence;
    repeat (destruct Hin as [<-|Hin]; [discriminate|]); contradiction.
Qed.

Lemma invokes_avoid_mixing (a b : method) :
  invokes a b -> a <> m_mixing_function -> b <> m_mixing_function.
Proof.
  induction 1 as [a b Hin|a b c Hin _ IH]; intros Ha.
  - now apply (callees_avoid_mixing a).
  - apply IH. now apply (callees_avoid_mixing a).
Qed.

(** * The claims *)

(** C1. Incremental/one-shot equivalence: for every byte sequence [m] and
    every list of chunks whose concatenation is [m], updating a fresh engine
    with the chunks in order and calling [digest] returns the same 32-byte
    digest as a single [update(m)] followed by [digest] on a fresh engine. *)
Theorem incremental_one_shot_equivalence (m : bytes) (chunks : list bytes) :
  concat chunks = m ->
  exists d : bytes,
    length d = 32%nat /\
    fst ((for_ chunks (fun c => update (Bytes c)) ;; digest) new) = Ret d /\
    fst ((update (Bytes m) ;; digest) new) = Ret d.
Proof.
  intros <-.
  pose proof engine_inv_new as (Hl & Hw & Hb).
  exists (digest_of (state (feed new (concat chunks)))
                    (padded (buffer (feed new (concat chunks))))).
  split; [|split].
  - apply length_digest_of. now rewrite feed_state_length.
  - unfold bind. rewrite updates_run by assumption.
    rewrite feed_concat by assumption.
    rewrite digest_ok; [reflexivity| |apply feed_buffer_short].
    now rewrite feed_state_length.
  - unfold bind. rewrite update_bytes_feed by assumption.
    rewrite digest_ok; [reflexivity| |apply feed_buffer_short].
    now rewrite feed_state_length.
Qed.

Lemma incremental_one_shot_equivalence_witness :
  concat [[x61; x62]; []; [x63]] = [x61; x62; x63] /\
  exists d : bytes,
    length d = 32%nat /\
    fst ((for_ [[x61; x62]; []; [x63]] (fun c => update (Bytes c)) ;; digest)
           new) = Ret d /\
    fst ((update (Bytes [x61; x62; x63]) ;; digest) new) = Ret d.
Proof.
  split; [reflexivity|].
  apply (incremental_one_shot_equivalence [x61; x62; x63]
           [[x61; x62]; []; [x63]]).
  reflexivity.
Defined.

(** C2. Post-finalize continuability: for all byte sequences [a] and [b],
    on a fresh engine the second digest of
    [update(a); digest(); update(b); digest()] is the digest of
    [update(a); update(b); digest()]. *)
Theorem post_finalize_continuability (a b : bytes) :
  exists d : bytes,
    length d = 32%nat /\
    fst ((update (Bytes a) ;; digest ;; update (Bytes b) ;; digest) new)
      = Ret d /\
    fst ((update (Bytes a) ;; update (Bytes b) ;; digest) new) = Ret d.
Proof.
  pose proof engine_inv_new as (Hl & Hw & Hb).
  assert (length (state (feed new a)) = 8%nat) as Hla
    by now rewrite feed_state_length.
  assert (length (state (feed (feed new a) b)) = 8%nat) as Hlb
    by now rewrite feed_state_length.
  exists (digest_of (state (feed (feed new a) b))
                    (padded (buffer (feed (feed new a) b)))).
  split; [|split].
  - now apply length_digest_of.
  - unfold bind. rewrite update_bytes_feed by assumption.
    rewrite digest_ok by (assumption || apply feed_buffer_short).
    rewrite update_bytes_feed by assumption.
    now rewrite digest_ok by (assumption || apply feed_buffer_short).
  - unfold bind. rewrite update_bytes_feed by assumption.
    rewrite update_bytes_feed by assumption.
    now rewrite digest_ok by (assumption || apply feed_buffer_short).
Qed.

(** C3. [digest] leaves the engine as it found it: on every engine that the
    public operations can produce, [digest] returns a 32-byte value and the
    engine after the call is the engine before it (the same 8 state words,
    the same pending buffer, not cleared); hence any number of [digest]
    calls in a row all return that same value. *)
Theorem digest_leaves_engine_unchanged (e : engine) :
  reachable e ->
  exists d : bytes,
    length d = 32%nat /\
    digest e = (Ret d, e) /\
    forall n : nat, repeat_digest n e = (Ret (repeat d n), e).
Proof.
  intros Hr. apply reachable_inv in Hr. destruct Hr as (Hl & Hw & Hb).
  exists (digest_of (state e) (padded (buffer e))).
  assert (digest e = (Ret (digest_of (state e) (padded (buffer e))), e))
    as Hd by now apply digest_ok.
  split; [now apply length_digest_of|]. split; [exact Hd|].
  induction n as [|n IH]; [reflexivity|].
  cbn [repeat_digest repeat]. unfold bind at 1. rewrite Hd.
  unfold bind at 1. now rewrite IH.
Qed.

Lemma digest_leaves_engine_unchanged_witness :
  reachable (snd (update (Bytes [x61; x62; x63]) new)) /\
  exists d : bytes,
    length d = 32%nat /\
    digest (snd (update (Bytes [x61; x62; x63]) new)) =
      (Ret d, snd (update (Bytes [x61; x62; x63]) new)) /\
    forall n : nat,
      repeat_digest n (snd (update (Bytes [x61; x62; x63]) new)) =
        (Ret (repeat d n), snd (update (Bytes [x61; x62; x63]) new)).
Proof.
  split.
  - apply reachable_update, reachable_new.
  - apply (digest_leaves_engine_unchanged
             (snd (update (Bytes [x61; x62; x63]) new))).
    apply reachable_update, reachable_new.
Defined.

(** C7. Every public operation keeps the engine invariant: a new engine
    satisfies it, and from an engine that satisfies it, [update] (whatever
    its argument and outcome), [digest] and [reset] lead to an engine whose
    state is exactly 8 words, each in [0, 0xFFFFFFFF], and whose pending
    buffer holds at most 63 bytes; so every engine that the operations can
    produce has such a state and buffer. *)
Theorem public_operations_preserve_invariant
        (e : engine) (d : data) (e' : engine) :
  engine_inv e ->
  reachable e' ->
  engine_inv new /\
  engine_inv (snd (update d e)) /\
  engine_inv (snd (digest e)) /\
  engine_inv (snd (reset e)) /\
  length (state e') = 8%nat /\
  Forall (fun w => 0 <= w <= 0xFFFFFFFF) (state e') /\
  (length (buffer e') <= 63)%nat.
Proof.
  intros H Hr. split; [apply engine_inv_new|].
  split; [now apply update_inv|].
  split; [now apply digest_inv|].
  split; [rewrite reset_run; apply engine_inv_new|].
  exact (reachable_inv e' Hr).
Qed.

Lemma public_operations_preserve_invariant_witness :
  engine_inv (Engine INITIAL_HASH [x61] 1) /\
  reachable (snd (update (Str [97%N; 0xD800%N]) new)) /\
  engine_inv new /\
  engine_inv (snd (update (Bytes (repeat x62 70))
                          (Engine INITIAL_HASH [x61] 1))) /\
  engine_inv (snd (digest (Engine INITIAL_HASH [x61] 1))) /\
  engine_inv (snd (reset (Engine INITIAL_HASH [x61] 1))) /\
  length (state (snd (update (Str [97%N; 0xD800%N]) new))) = 8%nat /\
  Forall (fun w => 0 <= w <= 0xFFFFFFFF)
         (state (snd (update (Str [97%N; 0xD800%N]) new))) /\
  (length (buffer (snd (update (Str [97%N; 0xD800%N]) new))) <= 63)%nat.
Proof.
  assert (engine_inv (Engine INITIAL_HASH [x61] 1)) as H.
  { unfold engine_inv. cbn [state buffer].
    split; [reflexivity|]. split; [|simpl; lia].
    unfold INITIAL_HASH, word32. repeat constructor; lia. }
  assert (reachable (snd (update (Str [97%N; 0xD800%N]) new))) as Hr
    by apply reachable_update, reachable_new.
  split; [exact H|]. split; [exact Hr|].
  exact (public_operations_preserve_invariant
           (Engine INITIAL_HASH [x61] 1) (Bytes (repeat x62 70)) _ H Hr).
Defined.

(** C10. [update] with an empty byte sequence or an empty string is the
    identity on an engine that satisfies the invariant: it returns normally
    and leaves the state words and the pending buffer (and the counter) as
    they were.  Hence a script of calls with empty updates inserted at any
    places returns the same digests as the script without them. *)
Theorem empty_update_is_identity (e : engine) (cs cs' : list call) :
  engine_inv e ->
  with_empty_updates cs cs' ->
  update (Bytes []) e = (Ret tt, e) /\
  update (Str []) e = (Ret tt, e) /\
  run_calls cs' e = run_calls cs e.
Proof.
  intros He H. pose proof He as (Hl & Hw & Hb).
  split; [now apply update_empty|].
  split; [now apply update_empty|].
  now apply run_calls_with_empty_updates.
Qed.

Lemma empty_update_is_identity_witness :
  engine_inv (Engine INITIAL_HASH [x61] 1) /\
  with_empty_updates
    [CallUpdate (Bytes [x62]); CallDigest]
    [CallUpdate (Str []); CallUpdate (Bytes [x62]); CallUpdate (Bytes []);
     CallDigest] /\
  update (Bytes []) (Engine INITIAL_HASH [x61] 1) =
    (Ret tt, Engine INITIAL_HASH [x61] 1) /\
  update (Str []) (Engine INITIAL_HASH [x61] 1) =
    (Ret tt, Engine INITIAL_HASH [x61] 1) /\
  run_calls [CallUpdate (Str []); CallUpdate (Bytes [x62]);
             CallUpdate (Bytes []); CallDigest]
            (Engine INITIAL_HASH [x61] 1) =
  run_calls [CallUpdate (Bytes [x62]); CallDigest]
            (Engine INITIAL_HASH [x61] 1).
Proof.
  assert (engine_inv (Engine INITIAL_HASH [x61] 1)) as H.
  { unfold engine_inv. cbn [state buffer].
    split; [reflexivity|]. split; [|simpl; lia].
    unfold INITIAL_HASH, word32. repeat constructor; lia. }
  assert (with_empty_updates
            [CallUpdate (Bytes [x62]); CallDigest]
            [CallUpdate (Str []); CallUpdate (Bytes [x62]);
             CallUpdate (Bytes []); CallDigest]) as Hw.
  { apply weu_insert; [reflexivity|]. apply weu_same.
    apply weu_insert; [reflexivity|]. apply weu_same. apply weu_nil. }
  split; [exact H|]. split; [exact Hw|].
  exact (empty_update_is_identity _ _ _ H Hw).
Defined.

(** C8. On an engine that satisfies the invariant, [update] returns
    normally, with no value, for every byte sequence and for every string
    that UTF-8 can encode.  For a string that UTF-8 cannot encode (one with
    a surrogate code point) the encoding error, Python's
    [UnicodeEncodeError], leaves [update] and the engine is as it was
    before the call. *)
Theorem update_never_fails_but_for_encoding
        (e : engine) (b : bytes) (s s' : str) :
  engine_inv e ->
  Forall (fun c => ~ surrogate c) s ->
  Exists surrogate s' ->
  (exists e1, update (Bytes b) e = (Ret tt, e1)) /\
  (exists e2, update (Str s) e = (Ret tt, e2)) /\
  update (Str s') e = (Raise UnicodeEncodeError, e).
Proof.
  intros (Hl & Hw & Hb) Hs Hs'.
  split; [|split].
  - eexists. now apply update_bytes_feed.
  - destruct (encode_utf8_ok s Hs) as [bs Hbs].
    rewrite (update_str_encoded s bs e Hbs).
    eexists. now apply update_bytes_feed.
  - apply update_str_raises. now apply encode_utf8_surrogate.
Qed.

Lemma update_never_fails_but_for_encoding_witness :
  engine_inv new /\
  Forall (fun c => ~ surrogate c) [104%N; 233%N; 0x4F60%N; 0x1F389%N] /\
  Exists surrogate [104%N; 0xDC00%N] /\
  (exists e1, update (Bytes [x61; x62]) new = (Ret tt, e1)) /\
  (exists e2,
     update (Str [104%N; 233%N; 0x4F60%N; 0x1F389%N]) new = (Ret tt, e2)) /\
  update (Str [104%N; 0xDC00%N]) new = (Raise UnicodeEncodeError, new).
Proof.
  assert (Forall (fun c => ~ surrogate c)
                 [104%N; 233%N; 0x4F60%N; 0x1F389%N]) as Hs
    by (unfold surrogate; repeat constructor; lia).
  assert (Exists surrogate [104%N; 0xDC00%N]) as Hs'
    by (apply Exists_cons_tl, Exists_cons_hd; unfold surrogate; lia).
  split; [exact engine_inv_new|]. split; [exact Hs|]. split; [exact Hs'|].
  exact (update_never_fails_but_for_encoding
           new [x61; x62] _ _ engine_inv_new Hs Hs').
Defined.

(** C5. For a message shorter than 64 bytes, [_pad_message] returns the
    message, then one byte 0x80, then the least number of zero bytes that
    brings the length to 56 modulo 64, then 8 bytes that are the big-endian
    encoding of 8 times the length of the message; the length of the result
    is a positive multiple of 64. *)
Theorem pad_message_short_input (m : bytes) :
  (length m < 64)%nat ->
  exists (k : nat) (len_field : bytes),
    _pad_message m = Ret (m ++ [x80] ++ repeat x00 k ++ len_field) /\
    ((length (m ++ [x80] ++ repeat x00 k)) mod 64 = 56)%nat /\
    (forall j : nat,
       (j < k)%nat -> (length (m ++ [x80] ++ repeat x00 j) mod 64 <> 56)%nat) /\
    length len_field = 8%nat /\
    from_bytes len_field = 8 * Z.of_nat (length m) /\
    exists q : nat,
      (0 < q)%nat /\
      length (m ++ [x80] ++ repeat x00 k ++ len_field) = (64 * q)%nat.
Proof.
  intros Hm.
  exists (padding_len (length m)), (be_digits 8 (Z.of_nat (length m) * 8)).
  assert (forall j, length (m ++ [x80] ++ repeat x00 j)
                    = (length m + 1 + j)%nat) as Hlen.
  { intros j. rewrite !length_app, repeat_length. simpl length. lia. }
  destruct (padding_len_spec (length m)) as [Hk Hlt].
  split; [|split; [|split; [|split; [|split]]]].
  - rewrite pad_message_ok by lia. unfold padded.
    now rewrite <- !app_assoc.
  - now rewrite Hlen.
  - intros j Hj. rewrite Hlen. now apply padding_len_least.
  - apply length_be_digits.
  - apply from_bytes_length_field. lia.
  - destruct (length_padded_mod m) as [H0 Hpos].
    exists (length (padded m) / 64)%nat.
    pose proof (Nat.div_mod_eq (length (padded m)) 64) as Hd.
    replace (m ++ [x80] ++ repeat x00 (padding_len (length m)) ++
             be_digits 8 (Z.of_nat (length m) * 8)) with (padded m)
      by (unfold padded; now rewrite <- !app_assoc).
    lia.
Qed.

Lemma pad_message_short_input_witness :
  (length [x61; x62; x63] < 64)%nat /\
  exists (k : nat) (len_field : bytes),
    _pad_message [x61; x62; x63] =
      Ret ([x61; x62; x63] ++ [x80] ++ repeat x00 k ++ len_field) /\
    ((length ([x61; x62; x63] ++ [x80] ++ repeat x00 k)) mod 64 = 56)%nat /\
    (forall j : nat,
       (j < k)%nat ->
       (length ([x61; x62; x63] ++ [x80] ++ repeat x00 j) mod 64 <> 56)%nat) /\
    length len_field = 8%nat /\
    from_bytes len_field = 8 * Z.of_nat (length [x61; x62; x63]) /\
    exists q : nat,
      (0 < q)%nat /\
      length ([x61; x62; x63] ++ [x80] ++ repeat x00 k ++ len_field)
        = (64 * q)%nat.
Proof.
  split; [simpl; lia|].
  apply (pad_message_short_input [x61; x62; x63]). simpl. lia.
Defined.

(** C6. The length field written at finalize time is the bit length of the
    pending buffer, which holds (total bytes updated) mod 64 bytes, and not
    the bit length of everything passed to [update]: once 64 bytes or more
    were updated the two differ, although [counter] holds the total.  The
    digest does not depend on [counter], and two messages made of whole
    64-byte blocks in front of the same trailing bytes are padded to the
    same final blocks. *)
Theorem length_field_encodes_buffer_length
        (chunks : list bytes) (c' : Z) (p1 p2 t : bytes) :
  (length p1 mod 64 = 0)%nat ->
  (length p2 mod 64 = 0)%nat ->
  let e := snd (for_ chunks (fun c => update (Bytes c)) new) in
  let total := length (concat chunks) in
  counter e = Z.of_nat total /\
  length (buffer e) = (total mod 64)%nat /\
  (exists body len_field : bytes,
     _pad_message (buffer e) = Ret (body ++ len_field) /\
     length len_field = 8%nat /\
     from_bytes len_field = 8 * Z.of_nat (total mod 64) /\
     ((64 <= total)%nat -> from_bytes len_field <> 8 * Z.of_nat total) /\
     fst (digest e) = Ret (digest_of (state e) (body ++ len_field))) /\
  fst (digest (Engine (state e) (buffer e) c')) = fst (digest e) /\
  _pad_message (buffer (snd (update (Bytes (p1 ++ t)) new))) =
  _pad_message (buffer (snd (update (Bytes (p2 ++ t)) new))).
Proof.
  intros Hp1 Hp2 e total.
  pose proof engine_inv_new as (Hl & Hw & Hb).
  assert (e = feed new (concat chunks)) as He.
  { unfold e. rewrite updates_run by assumption.
    now rewrite feed_concat by assumption. }
  assert (length (state e) = 8%nat) as Hle
    by (rewrite He; now rewrite feed_state_length).
  assert (length (buffer e) = (total mod 64)%nat) as Hbuf.
  { rewrite He. unfold feed. cbn [buffer].
    rewrite absorb_all_buffer_length. now rewrite new_eq. }
  assert (length (buffer e) <= 63)%nat as Hshort
    by (rewrite He; apply feed_buffer_short).
  split; [|split; [assumption|split; [|split]]].
  - rewrite He. unfold feed. cbn [counter]. rewrite new_eq. cbn [counter]. lia.
  - exists ((buffer e ++ [x80]) ++ repeat x00 (padding_len (length (buffer e)))),
           (be_digits 8 (Z.of_nat (length (buffer e)) * 8)).
    fold (padded (buffer e)).
    assert (from_bytes (be_digits 8 (Z.of_nat (length (buffer e)) * 8))
            = 8 * Z.of_nat (total mod 64)) as Hf
      by (rewrite from_bytes_length_field by lia; now rewrite Hbuf).
    split; [apply pad_message_ok; lia|].
    split; [apply length_be_digits|].
    split; [exact Hf|].
    split.
    + intros Hge. rewrite Hf.
      pose proof (Nat.mod_upper_bound total 64 ltac:(lia)). lia.
    + now rewrite digest_ok.
  - rewrite (digest_ok e) by assumption.
    now rewrite digest_run by (assumption || lia).
  - rewrite !update_bytes_feed by assumption.
    unfold feed. cbn [buffer snd]. rewrite new_eq. cbn [state buffer app].
    now rewrite !buffer_after_prefix by assumption.
Qed.

Lemma length_field_encodes_buffer_length_witness :
  (length (@nil byte) mod 64 = 0)%nat /\
  (length (repeat x00 64) mod 64 = 0)%nat /\
  let e := snd (for_ [repeat x61 60; repeat x62 10]
                     (fun c => update (Bytes c)) new) in
  let total := length (concat [repeat x61 60; repeat x62 10]) in
  counter e = Z.of_nat total /\
  length (buffer e) = (total mod 64)%nat /\
  (exists body len_field : bytes,
     _pad_message (buffer e) = Ret (body ++ len_field) /\
     length len_field = 8%nat /\
     from_bytes len_field = 8 * Z.of_nat (total mod 64) /\
     ((64 <= total)%nat -> from_bytes len_field <> 8 * Z.of_nat total) /\
     fst (digest e) = Ret (digest_of (state e) (body ++ len_field))) /\
  fst (digest (Engine (state e) (buffer e) 7)) = fst (digest e) /\
  _pad_message (buffer (snd (update (Bytes ([] ++ [x63])) new))) =
  _pad_message (buffer (snd (update (Bytes (repeat x00 64 ++ [x63])) new))).
Proof.
  split; [reflexivity|]. split; [reflexivity|].
  apply (length_field_encodes_buffer_length
           [repeat x61 60; repeat x62 10] 7 [] (repeat x00 64) [x63]);
    reflexivity.
Defined.

(** C4. The compression step is a function of the 8-word state and the
    64-byte block alone: whatever the pending buffer (and the counter), it
    returns normally, leaves them as they were, and the new state is the
    one that the algorithm of section 4.1 computes from the state and the
    block: sixteen big-endian words, expansion to 64 words with the
    rotations by 7/18 and 17/19 and the shifts by 3 and 10, 64 rounds with
    the constant [K[i mod 16]], and the feed-forward addition modulo
    2^32. *)
Theorem compress_block_as_specified
        (st : list Z) (block buf : bytes) (c : Z) :
  length st = 8%nat ->
  Forall word32 st ->
  length block = 64%nat ->
  _compress_block block (Engine st buf c) =
  (Ret tt, Engine (Spec.compress st block) buf c).
Proof.
  intros Hl Hw Hb.
  rewrite compress_block_run by assumption.
  now rewrite compress_state_spec.
Qed.

Lemma compress_block_as_specified_witness :
  length INITIAL_HASH = 8%nat /\
  Forall word32 INITIAL_HASH /\
  length (repeat x61 64) = 64%nat /\
  _compress_block (repeat x61 64) (Engine INITIAL_HASH [x62; x63] 2) =
  (Ret tt, Engine (Spec.compress INITIAL_HASH (repeat x61 64)) [x62; x63] 2).
Proof.
  assert (Forall word32 INITIAL_HASH) as Hw
    by (unfold INITIAL_HASH, word32; repeat constructor; lia).
  split; [reflexivity|]. split; [exact Hw|]. split; [reflexivity|].
  exact (compress_block_as_specified
           INITIAL_HASH (repeat x61 64) [x62; x63] 2 eq_refl Hw eq_refl).
Defined.

(** C9. The mixing function takes no part in the engine.  No method
    other than [_mixing_function] itself (the constructor, [reset],
    [update], [digest], [hexdigest], the compression step, the padding, the
    rotations, the two module-level functions) ever leads to a call of it.
    And the engine of the specification (module [Spec]), which has no
    mixing function, returns for every sequence of inputs the digest that
    the engine as written returns. *)
Theorem digest_without_mixing_function (chunks : list bytes) (m : method) :
  m <> m_mixing_function ->
  ~ invokes m m_mixing_function /\
  fst ((for_ chunks (fun c => update (Bytes c)) ;; digest) new) =
  Ret (Spec.finalize (fold_left Spec.update chunks Spec.init)).
Proof.
  intros Hm. split.
  { intros Hi. now apply (invokes_avoid_mixing m m_mixing_function Hi). }
  pose proof engine_inv_new as (Hl & Hw & Hb).
  unfold bind. rewrite updates_run by assumption.
  assert (length (state (fold_left feed chunks new)) = 8%nat) as Hl'
    by now rewrite fold_feed_state_length.
  assert (engine_inv (fold_left feed chunks new)) as (_ & Hw' & Hb').
  { rewrite feed_concat by assumption. now apply feed_inv. }
  rewrite digest_ok by assumption. cbn [fst]. f_equal.
  rewrite digest_of_spec by assumption. f_equal.
  now rewrite fold_feed_spec by assumption.
Qed.

Lemma digest_without_mixing_function_witness :
  m_digest <> m_mixing_function /\
  ~ invokes m_digest m_mixing_function /\
  fst ((for_ [[x61; x62]; repeat x63 70] (fun c => update (Bytes c)) ;; digest)
         new) =
  Ret (Spec.finalize
         (fold_left Spec.update [[x61; x62]; repeat x63 70] Spec.init)).
Proof.
  assert (m_digest <> m_mixing_function) as H by discriminate.
  split; [exact H|].
  exact (digest_without_mixing_function [[x61; x62]; repeat x63 70] m_digest H).
Defined.

(** * Further properties of the module *)

(** ** Rotations, bit by bit *)

Lemma testbit_mask (v i : Z) :
  Z.testbit (Z.land v MASK32) i = Z.testbit v i && ((0 <=? i) && (i <? 32)).
Proof.
  rewrite Z.land_spec, MASK32_ones, Z.testbit_ones by lia. reflexivity.
Qed.

Lemma rotate_right_testbit (v s i : Z) :
  0 <= s <= 32 -> 0 <= i ->
  Z.testbit (_rotate_right v s) i =
  (i <? 32) && Z.testbit v ((i + s) mod 32).
Proof.
  intros Hs Hi. unfold _rotate_right. cbv zeta.
  rewrite testbit_mask, Z.lor_spec, Z.shiftr_spec, Z.shiftl_spec by lia.
  rewrite !testbit_mask.
  destruct (Z.ltb_spec i 32) as [Hlt|Hge];
    [|rewrite !andb_false_r; reflexivity].
  destruct (Z.leb_spec 0 i); [|lia]. cbn [andb]. rewrite andb_true_r.
  destruct (Z.lt_ge_cases (i + s) 32) as [Hlow|Hhigh].
  - rewrite (Z.mod_small (i + s)) by lia.
    destruct (Z.leb_spec 0 (i + s)); [|lia].
    destruct (Z.ltb_spec (i + s) 32); [|lia].
    destruct (Z.leb_spec 0 (i - (32 - s))); [lia|].
    cbn [andb]. now rewrite !andb_true_r, andb_false_r, orb_false_r.
  - replace ((i + s) mod 32) with (i - (32 - s)).
    + destruct (Z.ltb_spec (i + s) 32); [lia|].
      destruct (Z.leb_spec 0 (i - (32 - s))); [|lia].
      destruct (Z.ltb_spec (i - (32 - s)) 32); [|lia].
      cbn [andb]. now rewrite !andb_true_r, !andb_false_r.
    + apply (Z.mod_unique_pos _ _ 1); lia.
Qed.

Lemma rotate_left_testbit (v s i : Z) :
  0 <= s <= 32 -> 0 <= i ->
  Z.testbit (_rotate_left v s) i =
  (i <? 32) && Z.testbit v ((i - s) mod 32).
Proof.
  intros Hs Hi. unfold _rotate_left. cbv zeta.
  rewrite testbit_mask, Z.lor_spec, Z.shiftr_spec, Z.shiftl_spec by lia.
  rewrite !testbit_mask.
  destruct (Z.ltb_spec i 32) as [Hlt|Hge];
    [|rewrite !andb_false_r; reflexivity].
  destruct (Z.leb_spec 0 i); [|lia]. cbn [andb]. rewrite andb_true_r.
  destruct (Z.lt_ge_cases i s) as [Hlow|Hhigh].
  - replace ((i - s) mod 32) with (i + (32 - s)).
    + destruct (Z.leb_spec 0 (i - s)); [lia|].
      destruct (Z.leb_spec 0 (i + (32 - s))); [|lia].
      destruct (Z.ltb_spec (i + (32 - s)) 32); [|lia].
      cbn [andb]. now rewrite !andb_true_r, !andb_false_r.
    + apply (Z.mod_unique_pos _ _ (-1)); lia.
  - rewrite (Z.mod_small (i - s)) by lia.
    destruct (Z.leb_spec 0 (i - s)); [|lia].
    destruct (Z.ltb_spec (i - s) 32); [|lia].
    destruct (Z.ltb_spec (i + (32 - s)) 32); [lia|].
    cbn [andb]. now rewrite !andb_true_r, !andb_false_r, orb_false_r.
Qed.

Lemma rotate_left_right (v s : Z) :
  0 <= s <= 32 -> _rotate_left (_rotate_right v s) s = Z.land v MASK32.
Proof.
  intros Hs. apply Z.bits_inj'. intros i Hi.
  rewrite rotate_left_testbit, testbit_mask by assumption.
  destruct (Z.ltb_spec i 32) as [Hlt|Hge];
    [|rewrite !andb_false_r; reflexivity].
  destruct (Z.leb_spec 0 i); [|lia].
  pose proof (Z.mod_pos_bound (i - s) 32 ltac:(lia)) as Hm.
  rewrite rotate_right_testbit by lia.
  destruct (Z.ltb_spec ((i - s) mod 32) 32); [|lia].
  cbn [andb]. rewrite andb_true_r.
  rewrite Zplus_mod_idemp_l.
  replace (i - s + s) with i by lia.
  now rewrite Z.mod_small by lia.
Qed.

Lemma rotate_right_left (v s : Z) :
  0 <= s <= 32 -> _rotate_right (_rotate_left v s) s = Z.land v MASK32.
Proof.
  intros Hs. apply Z.bits_inj'. intros i Hi.
  rewrite rotate_right_testbit, testbit_mask by assumption.
  destruct (Z.ltb_spec i 32) as [Hlt|Hge];
    [|rewrite !andb_false_r; reflexivity].
  destruct (Z.leb_spec 0 i); [|lia].
  pose proof (Z.mod_pos_bound (i + s) 32 ltac:(lia)) as Hm.
  rewrite rotate_left_testbit by lia.
  destruct (Z.ltb_spec ((i + s) mod 32) 32); [|lia].
  cbn [andb]. rewrite andb_true_r.
  rewrite Zminus_mod_idemp_l.
  replace (i + s - s) with i by lia.
  now rewrite Z.mod_small by lia.
Qed.

Lemma rotate_left_as_right (v s : Z) :
  _rotate_left v s = _rotate_right v (32 - s).
Proof.
  unfold _rotate_left, _rotate_right. cbv zeta.
  replace (32 - (32 - s)) with s by lia.
  now rewrite Z.lor_comm.
Qed.

(** ** The mixing function *)










(** ** Padding, whatever the length *)

Lemma pad_message_inv (m p : bytes) :
  _pad_message m = Ret p ->
  Z.of_nat (length m) * 8 < 2 ^ 64 /\ p = padded m.
Proof.
  intros H.
  assert (Z.of_nat (length m) * 8 < 2 ^ 64) as Hb.
  { unfold _pad_message, to_bytes in H. cbv zeta in H.
    change (256 ^ Z.of_nat 8) with (2 ^ 64) in H.
    destruct (Z.ltb_spec (Z.of_nat (length m) * 8) (2 ^ 64)); [assumption|].
    rewrite andb_false_r in H. discriminate H. }
  split; [assumption|].
  rewrite pad_message_ok in H by assumption. congruence.
Qed.

Lemma app_inj_length_r {A} (a b c d : list A) :
  a ++ b = c ++ d -> length b = length d -> a = c /\ b = d.
Proof.
  intros H Hl.
  assert (length a = length c) as Hac.
  { apply (f_equal (@length A)) in H. rewrite !length_app in H. lia. }
  split.
  - apply (f_equal (firstn (length a))) in H.
    rewrite firstn_app, Nat.sub_diag, firstn_all, firstn_O, app_nil_r in H.
    rewrite Hac, firstn_app, Nat.sub_diag, firstn_all, firstn_O, app_nil_r
      in H. exact H.
  - apply (f_equal (skipn (length a))) in H.
    rewrite skipn_app, Nat.sub_diag, skipn_all in H.
    rewrite Hac, skipn_app, Nat.sub_diag, skipn_all in H. exact H.
Qed.

Lemma padded_prefix (m : bytes) : firstn (length m) (padded m) = m.
Proof.
  unfold padded. rewrite <- !app_assoc.
  now rewrite firstn_app, Nat.sub_diag, firstn_all, firstn_O, app_nil_r.
Qed.

Lemma padded_marker (m : bytes) : nth (length m) (padded m) x00 = x80.
Proof.
  unfold padded. rewrite <- !app_assoc. cbn [app]. apply nth_middle.
Qed.

Lemma length_padded_formula (m : bytes) :
  length (padded m) = (64 * ((length m + 8) / 64 + 1))%nat.
Proof.
  rewrite length_padded.
  destruct (padding_len_spec (length m)) as [Hk Hlt].
  pose proof (Nat.div_mod_eq (length m + 1 + padding_len (length m)) 64) as E.
  rewrite Hk in E.
  assert ((length m + 8) / 64 =
          (length m + 1 + padding_len (length m)) / 64)%nat as Hq.
  { symmetry. apply (Nat.div_unique _ _ _ (63 - padding_len (length m))); lia. }
  rewrite Hq. lia.
Qed.

Lemma padded_inj (m1 m2 : bytes) :
  Z.of_nat (length m1) * 8 < 2 ^ 64 ->
  Z.of_nat (length m2) * 8 < 2 ^ 64 ->
  padded m1 = padded m2 -> m1 = m2.
Proof.
  intros H1 H2 H.
  assert (length m1 = length m2) as Hl.
  { pose proof H as H'. unfold padded in H'.
    apply app_inj_length_r in H'; [|now rewrite !length_be_digits].
    destruct H' as [_ Hf]. apply (f_equal from_bytes) in Hf.
    rewrite !from_bytes_length_field in Hf by assumption. lia. }
  rewrite <- (padded_prefix m1), <- (padded_prefix m2), H, Hl. reflexivity.
Qed.

(** ** Hexadecimal output *)

Lemma byte_halves (x : byte) :
  0 <= Z.shiftr (Z_of_byte x) 4 < 16 /\
  0 <= Z.land (Z_of_byte x) 15 < 16 /\
  Z_of_byte x = 16 * Z.shiftr (Z_of_byte x) 4 + Z.land (Z_of_byte x) 15.
Proof.
  pose proof (Z_of_byte_range x) as Hr.
  rewrite Z.shiftr_div_pow2 by lia.
  change 15 with (Z.ones 4). rewrite Z.land_ones by lia.
  change (2 ^ 4) with 16.
  pose proof (Z.div_mod (Z_of_byte x) 16 ltac:(lia)).
  pose proof (Z.mod_pos_bound (Z_of_byte x) 16 ltac:(lia)).
  assert (0 <= Z_of_byte x / 16 < 16)
    by (split; [apply Z.div_pos; lia|apply Z.div_lt_upper_bound; lia]).
  lia.
Qed.

Lemma hex_digit_lower (n : Z) : 0 <= n < 16 -> lower_hex (hex_digit n).
Proof.
  intros H. unfold lower_hex, hex_digit.
  destruct (Z.ltb_spec n 10); lia.
Qed.

Lemma hex_digit_inj (n1 n2 : Z) :
  0 <= n1 < 16 -> 0 <= n2 < 16 -> hex_digit n1 = hex_digit n2 -> n1 = n2.
Proof.
  unfold hex_digit. intros H1 H2.
  destruct (Z.ltb_spec n1 10); destruct (Z.ltb_spec n2 10); lia.
Qed.

Lemma Z_of_byte_inj (x y : byte) : Z_of_byte x = Z_of_byte y -> x = y.
Proof.
  unfold Z_of_byte. intros H. apply N2Z.inj in H.
  pose proof (Byte.of_to_N x) as Hx. rewrite H, Byte.of_to_N in Hx.
  congruence.
Qed.

Lemma length_hex (b : bytes) : length (hex b) = (2 * length b)%nat.
Proof.
  unfold hex. induction b as [|x b IH]; [reflexivity|].
  cbn [flat_map app length]. rewrite IH. lia.
Qed.

Lemma hex_lower (b : bytes) : Forall lower_hex (hex b).
Proof.
  unfold hex. induction b as [|x b IH]; [constructor|].
  cbn [flat_map app].
  destruct (byte_halves x) as (Hh & Hl & _).
  constructor; [now apply hex_digit_lower|].
  constructor; [now apply hex_digit_lower|]. exact IH.
Qed.

Lemma hex_inj (b1 b2 : bytes) : hex b1 = hex b2 -> b1 = b2.
Proof.
  unfold hex. revert b2.
  induction b1 as [|x b1 IH]; intros [|y b2] H; try discriminate H;
    [reflexivity|].
  cbn [flat_map app] in H. injection H as Hh Hl Ht.
  destruct (byte_halves x) as (Hxh & Hxl & Ex).
  destruct (byte_halves y) as (Hyh & Hyl & Ey).
  apply hex_digit_inj in Hh; try assumption.
  apply hex_digit_inj in Hl; try assumption.
  f_equal; [|now apply IH].
  apply Z_of_byte_inj. lia.
Qed.

Lemma hexdigest_ok (e : engine) :
  length (state e) = 8%nat -> (length (buffer e) <= 63)%nat ->
  hexdigest e = (Ret (hex (digest_of (state e) (padded (buffer e)))), e).
Proof.
  intros Hl Hb. unfold hexdigest, bind. now rewrite digest_ok.
Qed.

(** ** Text, chunk by chunk *)

Lemma encode_utf8_app (s1 s2 : str) :
  encode_utf8 (s1 ++ s2) =
  obind (encode_utf8 s1) (fun b1 =>
  obind (encode_utf8 s2) (fun b2 => Ret (b1 ++ b2))).
Proof.
  induction s1 as [|c s1 IH].
  - cbn [app encode_utf8 obind]. destruct (encode_utf8 s2); reflexivity.
  - cbn [app encode_utf8]. rewrite IH.
    destruct (utf8_encode_char c) as [bs|x|]; cbn [obind]; try reflexivity.
    destruct (encode_utf8 s1) as [b1|x|]; cbn [obind]; try reflexivity.
    destruct (encode_utf8 s2) as [b2|x|]; cbn [obind]; try reflexivity.
    now rewrite app_assoc.
Qed.


Lemma update_str_run (s : str) (e : engine) :
  length (state e) = 8%nat ->
  update (Str s) e =
  match encode_utf8 s with
  | Ret b => (Ret tt, feed e b)
  | Raise x => (Raise x, e)
  | OutOfFuel => (OutOfFuel, e)
  end.
Proof.
  intros Hl. destruct (encode_utf8 s) as [b|x|] eqn:E.
  - rewrite (update_str_encoded s b e E). now apply update_bytes_feed.
  - now apply update_str_raises.
  - now apply encode_utf8_no_fuel in E.
Qed.

Lemma bind_bind {A B C} (m : M A) (k : A -> M B) (h : B -> M C) (e : engine) :
  bind (bind m k) h e = bind m (fun x => bind (k x) h) e.
Proof.
  unfold bind. destruct (m e) as [[a| |] e1]; reflexivity.
Qed.

Lemma text_chunks_run (chunks : list str) (e : engine) :
  engine_inv e ->
  fst ((for_ chunks (fun s => update (Str s)) ;; hexdigest) e) =
  fst ((update (Str (concat chunks)) ;; hexdigest) e).
Proof.
  revert e. induction chunks as [|c cs IH]; intros e He;
    pose proof He as (Hl & Hw & Hb).
  - cbn [for_ concat]. unfold bind, ret.
    now rewrite (update_empty (Str []) e eq_refl Hb).
  - cbn [for_ concat]. rewrite bind_bind.
    unfold bind at 1. symmetry. unfold bind at 1. symmetry.
    rewrite !update_str_run, encode_utf8_app by assumption.
    destruct (encode_utf8 c) as [b|x|]; cbn [obind]; try reflexivity.
    rewrite (IH (feed e b)) by now apply feed_inv.
    unfold bind at 1.
    rewrite update_str_run by now rewrite feed_state_length.
    destruct (encode_utf8 (concat cs)) as [b2|x|]; cbn [obind];
      try reflexivity.
    now rewrite feed_app.
Qed.

(** ** Reading a file *)

Lemma READ_SIZE_pos : (0 < READ_SIZE)%nat.
Proof. unfold READ_SIZE. lia. Qed.

Lemma hash_file_loop_unfold (fuel : nat) (rest : bytes) :
  hash_file_loop fuel rest =
  match firstn READ_SIZE rest with
  | [] => ret tt
  | _ :: _ =>
      match fuel with
      | O => lift OutOfFuel
      | S fuel' =>
          update (Bytes (firstn READ_SIZE rest)) ;;
          hash_file_loop fuel' (skipn READ_SIZE rest)
      end
  end.
Proof. destruct fuel; reflexivity. Qed.

Lemma hash_file_loop_run (fuel : nat) (rest : bytes) (e : engine) :
  engine_inv e ->
  (length rest <= fuel * READ_SIZE)%nat ->
  hash_file_loop fuel rest e = (Ret tt, feed e rest).
Proof.
  pose proof READ_SIZE_pos as Hn.
  revert rest e. induction fuel as [|fuel IH]; intros rest e He Hf;
    pose proof He as (Hl & Hw & Hb);
    rewrite hash_file_loop_unfold;
    destruct (firstn READ_SIZE rest) as [|x chunk] eqn:Ec.
  - destruct rest; [|cbn [length] in Hf; lia]. now rewrite feed_nil.
  - destruct rest; [|cbn [length] in Hf; lia]. now rewrite firstn_nil in Ec.
  - assert (rest = []) as ->.
    { apply (f_equal (@length byte)) in Ec. rewrite length_firstn in Ec.
      destruct rest; [reflexivity|]. cbn [length] in Ec. lia. }
    now rewrite feed_nil.
  - rewrite <- Ec. unfold bind.
    rewrite update_bytes_feed by assumption.
    rewrite IH.
    + now rewrite feed_app, firstn_skipn.
    + now apply feed_inv.
    + rewrite length_skipn. lia.
Qed.

Lemma read_bound (n : nat) : (n <= (n / READ_SIZE + 1) * READ_SIZE)%nat.
Proof.
  pose proof READ_SIZE_pos as Hn.
  pose proof (Nat.div_mod_eq n READ_SIZE) as E.
  pose proof (Nat.mod_upper_bound n READ_SIZE ltac:(lia)) as Hm.
  nia.
Qed.

(** ** The engine, block by block *)

Lemma absorb_all_whole_blocks (st : list Z) (p : bytes) :
  (length p mod 64 = 0)%nat ->
  absorb_all st p = (fold_left compress_state (blocks p) st, []).
Proof.
  intros H. rewrite absorb_all_chunks, blocks_chunks by assumption.
  f_equal. apply skipn_all2.
  pose proof (Nat.div_mod_eq (length p) 64). lia.
Qed.

Lemma for_compress_blocks (bs : list bytes) (e : engine) :
  length (state e) = 8%nat ->
  for_ bs _compress_block e =
  (Ret tt, Engine (fold_left compress_state bs (state e))
                  (buffer e) (counter e)).
Proof.
  destruct e as [st buf c]. cbn [state buffer counter]. intros H.
  rewrite <- (map_id bs) at 2.
  now apply (for_compress_run bs (fun b => b)).
Qed.

Lemma reachable_counter (e : engine) :
  reachable e ->
  0 <= counter e /\ Z.of_nat (length (buffer e)) = counter e mod 64.
Proof.
  induction 1 as [|e d Hr IH|e Hr IH|e _ _].
  - rewrite new_eq. cbn [counter buffer length]. split; [lia|reflexivity].
  - assert (forall b,
              0 <= counter (feed e b) /\
              Z.of_nat (length (buffer (feed e b))) = counter (feed e b) mod 64)
      as Hfeed.
    { intros b. destruct IH as [Hc Hb]. unfold feed. cbn [counter buffer].
      split; [lia|].
      rewrite absorb_all_buffer_length, Nat2Z.inj_mod, length_app,
        Nat2Z.inj_add, Hb.
      change (Z.of_nat 64) with 64.
      now rewrite Zplus_mod_idemp_l. }
    pose proof (reachable_inv e Hr) as (Hl & _ & _).
    destruct d as [b|s].
    + rewrite update_bytes_feed by assumption. apply Hfeed.
    + rewrite update_str_run by assumption.
      destruct (encode_utf8 s); cbn [snd]; [apply Hfeed|exact IH|exact IH].
  - pose proof (reachable_inv e Hr) as (Hl & _ & Hb).
    now rewrite digest_ok.
  - rewrite reset_run, new_eq. cbn [snd counter buffer length].
    split; [lia|reflexivity].
Qed.

(** * Further properties, stated *)

(** X1. [_rotate_right] is a circular rotation of the low 32 bits: for a
    shift from 0 to 32 and any integer [v], bit [i] of the result is bit
    [(i + shift) mod 32] of [v] when [i < 32], and no bit from 32 upwards
    is set. *)
Theorem rotate_right_is_circular (v s i : Z) :
  0 <= s <= 32 -> 0 <= i ->
  Z.testbit (_rotate_right v s) i =
  (i <? 32) && Z.testbit v ((i + s) mod 32).
Proof. apply rotate_right_testbit. Qed.

Lemma rotate_right_is_circular_witness :
  0 <= 7 <= 32 /\ 0 <= 30 /\
  Z.testbit (_rotate_right 0x12345678 7) 30 =
  (30 <? 32) && Z.testbit 0x12345678 ((30 + 7) mod 32).
Proof.
  split; [lia|]. split; [lia|].
  apply (rotate_right_is_circular 0x12345678 7 30); lia.
Defined.

(** X2. [_rotate_left] is the circular rotation the other way: for a
    shift from 0 to 32, bit [i] of the result is bit [(i - shift) mod 32]
    of [v] when [i < 32], and no bit from 32 upwards is set. *)
Theorem rotate_left_is_circular (v s i : Z) :
  0 <= s <= 32 -> 0 <= i ->
  Z.testbit (_rotate_left v s) i =
  (i <? 32) && Z.testbit v ((i - s) mod 32).
Proof. apply rotate_left_testbit. Qed.

Lemma rotate_left_is_circular_witness :
  0 <= 7 <= 32 /\ 0 <= 3 /\
  Z.testbit (_rotate_left 0x12345678 7) 3 =
  (3 <? 32) && Z.testbit 0x12345678 ((3 - 7) mod 32).
Proof.
  split; [lia|]. split; [lia|].
  apply (rotate_left_is_circular 0x12345678 7 3); lia.
Defined.

(** X3. The two rotations undo each other: for a shift from 0 to 32,
    rotating right then left, or left then right, by the same amount gives
    back the low 32 bits of the value; and rotating left by [s] is rotating
    right by [32 - s]. *)
Theorem rotations_are_inverse (v s : Z) :
  0 <= s <= 32 ->
  _rotate_left (_rotate_right v s) s = Z.land v 0xFFFFFFFF /\
  _rotate_right (_rotate_left v s) s = Z.land v 0xFFFFFFFF /\
  _rotate_left v s = _rotate_right v (32 - s).
Proof.
  intros Hs. split; [now apply rotate_left_right|].
  split; [now apply rotate_right_left|apply rotate_left_as_right].
Qed.

Lemma rotations_are_inverse_witness :
  0 <= 11 <= 32 /\
  _rotate_left (_rotate_right (-5) 11) 11 = Z.land (-5) 0xFFFFFFFF /\
  _rotate_right (_rotate_left (-5) 11) 11 = Z.land (-5) 0xFFFFFFFF /\
  _rotate_left (-5) 11 = _rotate_right (-5) (32 - 11).
Proof.
  split; [lia|]. apply (rotations_are_inverse (-5) 11). lia.
Defined.



(** X5. For a message of any length whose bit length fits in 64 bits,
    [_pad_message] returns normally; the result starts with the message,
    has the byte 0x80 right after it, and its length is
    [64 * ((len + 8) / 64 + 1)]: the least multiple of 64 with room for the
    message and 9 more bytes. *)
Theorem pad_message_any_length (m : bytes) :
  Z.of_nat (length m) * 8 < 2 ^ 64 ->
  exists p : bytes,
    _pad_message m = Ret p /\
    length p = (64 * ((length m + 8) / 64 + 1))%nat /\
    firstn (length m) p = m /\
    nth (length m) p x00 = x80.
Proof.
  intros H. exists (padded m).
  split; [now apply pad_message_ok|].
  split; [apply length_padded_formula|].
  split; [apply padded_prefix|apply padded_marker].
Qed.

Lemma pad_message_any_length_witness :
  Z.of_nat (length (repeat x61 120)) * 8 < 2 ^ 64 /\
  exists p : bytes,
    _pad_message (repeat x61 120) = Ret p /\
    length p = (64 * ((length (repeat x61 120) + 8) / 64 + 1))%nat /\
    firstn (length (repeat x61 120)) p = repeat x61 120 /\
    nth (length (repeat x61 120)) p x00 = x80.
Proof.
  assert (Z.of_nat (length (repeat x61 120)) * 8 < 2 ^ 64) as H
    by (rewrite repeat_length; lia).
  split; [exact H|].
  exact (pad_message_any_length (repeat x61 120) H).
Defined.

(** X6. Padding is injective: two messages that [_pad_message] pads to the
    same byte sequence are the same message. *)
Theorem pad_message_injective (m1 m2 p : bytes) :
  _pad_message m1 = Ret p -> _pad_message m2 = Ret p -> m1 = m2.
Proof.
  intros H1 H2.
  apply pad_message_inv in H1. destruct H1 as [Hb1 E1].
  apply pad_message_inv in H2. destruct H2 as [Hb2 E2].
  apply padded_inj; congruence.
Qed.

Lemma pad_message_injective_witness :
  _pad_message [x61; x62] = Ret (padded [x61; x62]) /\
  _pad_message ([x61] ++ [x62]) = Ret (padded [x61; x62]) /\
  [x61; x62] = [x61] ++ [x62].
Proof.
  assert (_pad_message [x61; x62] = Ret (padded [x61; x62])) as H1
    by reflexivity.
  assert (_pad_message ([x61] ++ [x62]) = Ret (padded [x61; x62])) as H2
    by reflexivity.
  split; [exact H1|]. split; [exact H2|].
  exact (pad_message_injective [x61; x62] ([x61] ++ [x62]) _ H1 H2).
Defined.

(** X7. On every engine that the public operations can produce,
    [hexdigest] returns normally with 64 characters, each a digit or a
    letter from a to f, and leaves the engine as it was; two such engines
    have the same [hexdigest] exactly when they have the same [digest]. *)
Theorem hexdigest_format (e1 e2 : engine) :
  reachable e1 -> reachable e2 ->
  (exists h : str,
     hexdigest e1 = (Ret h, e1) /\ length h = 64%nat /\ Forall lower_hex h) /\
  (fst (hexdigest e1) = fst (hexdigest e2) <->
   fst (digest e1) = fst (digest e2)).
Proof.
  intros H1 H2.
  apply reachable_inv in H1. destruct H1 as (Hl1 & _ & Hb1).
  apply reachable_inv in H2. destruct H2 as (Hl2 & _ & Hb2).
  rewrite !hexdigest_ok, !digest_ok by assumption. cbn [fst].
  split.
  - eexists. split; [reflexivity|].
    split; [|apply hex_lower].
    now rewrite length_hex, length_digest_of.
  - split; intros H.
    + injection H as H. apply hex_inj in H. now rewrite H.
    + injection H as H. now rewrite H.
Qed.

Lemma hexdigest_format_witness :
  reachable new /\ reachable (snd (update (Bytes [x61]) new)) /\
  (exists h : str,
     hexdigest new = (Ret h, new) /\ length h = 64%nat /\
     Forall lower_hex h) /\
  (fst (hexdigest new) = fst (hexdigest (snd (update (Bytes [x61]) new))) <->
   fst (digest new) = fst (digest (snd (update (Bytes [x61]) new)))).
Proof.
  assert (reachable (snd (update (Bytes [x61]) new))) as H2
    by apply reachable_update, reachable_new.
  split; [exact reachable_new|]. split; [exact H2|].
  exact (hexdigest_format new _ reachable_new H2).
Defined.


(** X9. [hash_file] on a file that can be opened returns what
    [hash_string] returns on the bytes of the file: reading in pieces of
    8192 bytes changes nothing. *)
Theorem hash_file_is_hash_string
        (fs : str -> option bytes) (filename : str) (content : bytes) :
  fs filename = Some content ->
  hash_file fs filename = Completed (hash_string (Bytes content)).
Proof.
  intros H. unfold hash_file, hash_string. rewrite H. f_equal.
  pose proof engine_inv_new as He. pose proof He as (Hl & Hw & Hb).
  unfold bind.
  rewrite hash_file_loop_run by (assumption || apply read_bound).
  now rewrite update_bytes_feed.
Qed.

Lemma hash_file_is_hash_string_witness :
  (fun _ : str => Some (repeat x61 (Z.to_nat 20000))) [102%N] =
    Some (repeat x61 (Z.to_nat 20000)) /\
  hash_file (fun _ : str => Some (repeat x61 (Z.to_nat 20000))) [102%N] =
    Completed (hash_string (Bytes (repeat x61 (Z.to_nat 20000)))).
Proof.
  split; [reflexivity|].
  exact (hash_file_is_hash_string
           (fun _ : str => Some (repeat x61 (Z.to_nat 20000))) [102%N]
           (repeat x61 (Z.to_nat 20000)) eq_refl).
Defined.

(** X10. Text in pieces: updating a new engine with the strings of a list,
    in order, and calling [hexdigest] has the outcome of [hash_string] on
    their concatenation: the same 64 characters, or [UnicodeEncodeError]
    in both when a surrogate occurs in some piece. *)
Theorem text_chunks_equal_one_shot (chunks : list str) :
  fst ((for_ chunks (fun s => update (Str s)) ;; hexdigest) new) =
  hash_string (Str (concat chunks)).
Proof.
  unfold hash_string. apply text_chunks_run, engine_inv_new.
Qed.

(** X11. The digest is the state after the padding has been fed: if
    [suffix] is what [_pad_message] appends to the pending buffer left by
    [update(m)] on a new engine, then [update(m + suffix)] on a new engine
    leaves an empty buffer, and [digest] after [update(m)] returns the
    big-endian bytes of that state. *)
Theorem digest_is_state_after_padding (m suffix : bytes) :
  let e := snd (update (Bytes m) new) in
  let e' := snd (update (Bytes (m ++ suffix)) new) in
  _pad_message (buffer e) = Ret (buffer e ++ suffix) ->
  buffer e' = [] /\ fst (digest e) = Ret (encode_state (state e')).
Proof.
  intros e e'. subst e e'.
  pose proof engine_inv_new as (Hl & Hw & Hb).
  rewrite !update_bytes_feed by assumption. cbn [snd].
  intros Hp. apply pad_message_inv in Hp. destruct Hp as [_ Hp].
  assert (length (state (feed new m)) = 8%nat) as Hlm
    by now rewrite feed_state_length.
  rewrite <- feed_app.
  rewrite digest_ok by (assumption || apply feed_buffer_short). cbn [fst].
  generalize dependent (feed new m). intros e0 Hp Hl0.
  assert (feed e0 suffix =
          Engine (fold_left compress_state (blocks (padded (buffer e0)))
                            (state e0))
                 [] (counter e0 + Z.of_nat (length suffix))) as ->.
  { unfold feed.
    now rewrite Hp, absorb_all_whole_blocks by apply length_padded_mod. }
  cbn [buffer state]. split; reflexivity.
Qed.

Lemma digest_is_state_after_padding_witness :
  _pad_message (buffer (snd (update (Bytes [x61; x62; x63]) new))) =
    Ret (buffer (snd (update (Bytes [x61; x62; x63]) new))
         ++ ([x80] ++ repeat x00 52 ++ be_digits 8 24)) /\
  buffer (snd (update (Bytes ([x61; x62; x63]
                              ++ ([x80] ++ repeat x00 52 ++ be_digits 8 24)))
                      new)) = [] /\
  fst (digest (snd (update (Bytes [x61; x62; x63]) new))) =
  Ret (encode_state
         (state (snd (update
                        (Bytes ([x61; x62; x63]
                                ++ ([x80] ++ repeat x00 52 ++ be_digits 8 24)))
                        new)))).
Proof.
  assert (_pad_message (buffer (snd (update (Bytes [x61; x62; x63]) new))) =
          Ret (buffer (snd (update (Bytes [x61; x62; x63]) new))
               ++ ([x80] ++ repeat x00 52 ++ be_digits 8 24))) as H
    by reflexivity.
  split; [exact H|].
  exact (digest_is_state_after_padding
           [x61; x62; x63] ([x80] ++ repeat x00 52 ++ be_digits 8 24) H).
Defined.

(** X12. What [update] does to an engine that satisfies the invariant: it
    runs the compression step on each complete 64-byte block of (pending
    buffer + data), in order, keeps the remaining bytes as the new pending
    buffer, and adds the number of bytes of the data to the counter. *)
Theorem update_compresses_leading_blocks (e : engine) (d : bytes) :
  engine_inv e ->
  let all := buffer e ++ d in
  let q := (length all / 64)%nat in
  update (Bytes d) e =
  (Ret tt,
   Engine (state (snd (for_ (Spec.chunks q all) _compress_block e)))
          (skipn (64 * q) all)
          (counter e + Z.of_nat (length d))).
Proof.
  intros (Hl & Hw & Hb) all q. subst all q.
  rewrite update_bytes_feed by assumption.
  rewrite for_compress_blocks by assumption. cbn [snd state].
  unfold feed. now rewrite absorb_all_chunks.
Qed.

Lemma update_compresses_leading_blocks_witness :
  engine_inv (Engine INITIAL_HASH [x61] 1) /\
  let all := buffer (Engine INITIAL_HASH [x61] 1) ++ repeat x62 130 in
  let q := (length all / 64)%nat in
  update (Bytes (repeat x62 130)) (Engine INITIAL_HASH [x61] 1) =
  (Ret tt,
   Engine (state (snd (for_ (Spec.chunks q all) _compress_block
                            (Engine INITIAL_HASH [x61] 1))))
          (skipn (64 * q) all)
          (counter (Engine INITIAL_HASH [x61] 1)
           + Z.of_nat (length (repeat x62 130)))).
Proof.
  assert (engine_inv (Engine INITIAL_HASH [x61] 1)) as H.
  { unfold engine_inv. cbn [state buffer].
    split; [reflexivity|]. split; [|simpl; lia].
    unfold INITIAL_HASH, word32. repeat constructor; lia. }
  split; [exact H|].
  exact (update_compresses_leading_blocks
           (Engine INITIAL_HASH [x61] 1) (repeat x62 130) H).
Defined.

(** X13. As long as fewer than 64 bytes are pending after it, [update]
    only buffers: on any engine, it returns normally, leaves the state
    words alone, appends the data to the buffer and adds its length to the
    counter. *)
Theorem short_update_only_buffers (e : engine) (d : bytes) :
  (length (buffer e) + length d < 64)%nat ->
  update (Bytes d) e =
  (Ret tt, Engine (state e) (buffer e ++ d) (counter e + Z.of_nat (length d))).
Proof.
  destruct e as [st buf c]. cbn [state buffer counter]. intros H.
  unfold update, bind, ret, get_buffer, set_buffer, get_counter, set_counter.
  cbn [state buffer counter].
  assert (length (buf ++ d) < 64)%nat as Hlt by (rewrite length_app; lia).
  rewrite Nat.div_small by assumption. cbn [update_loop].
  unfold bind. cbn [get_buffer buffer].
  destruct (Nat.leb_spec 64 (length (buf ++ d))); [lia|reflexivity].
Qed.

Lemma short_update_only_buffers_witness :
  (length (buffer (Engine [] [x61] 5)) + length [x62; x63] < 64)%nat /\
  update (Bytes [x62; x63]) (Engine [] [x61] 5) =
  (Ret tt, Engine (state (Engine [] [x61] 5))
                  (buffer (Engine [] [x61] 5) ++ [x62; x63])
                  (counter (Engine [] [x61] 5)
                   + Z.of_nat (length [x62; x63]))).
Proof.
  assert (length (buffer (Engine [] [x61] 5)) + length [x62; x63] < 64)%nat
    as H by (simpl; lia).
  split; [exact H|].
  exact (short_update_only_buffers (Engine [] [x61] 5) [x62; x63] H).
Defined.

(** X14. On every engine that the public operations can produce, the
    counter is not negative and the number of pending bytes is the counter
    modulo 64. *)
Theorem counter_tracks_buffer (e : engine) :
  reachable e ->
  0 <= counter e /\ Z.of_nat (length (buffer e)) = counter e mod 64.
Proof. apply reachable_counter. Qed.

Lemma counter_tracks_buffer_witness :
  reachable (snd (update (Bytes (repeat x61 70)) new)) /\
  0 <= counter (snd (update (Bytes (repeat x61 70)) new)) /\
  Z.of_nat (length (buffer (snd (update (Bytes (repeat x61 70)) new)))) =
  counter (snd (update (Bytes (repeat x61 70)) new)) mod 64.
Proof.
  assert (reachable (snd (update (Bytes (repeat x61 70)) new))) as H
    by apply reachable_update, reachable_new.
  split; [exact H|].
  exact (counter_tracks_buffer _ H).
Defined.
